(** * Split-flap display engine: a shallow embedding and its properties

    The development follows [public/js/split-flap.js] (drums, slots, groups,
    rows, the sequencer and the pager) and the part of [app.js] that builds
    the record list served under [/api/arrivals].

    Layout: the JavaScript primitives the code relies on (module [JS]), the
    display engine (module [Display]) and its loading functions with the
    exception of the selector engine (module [Throwing]), the pager (module
    [Pager]), the backend list construction (module [Backend]), the
    vocabulary of the statements, a sample host with a sample board and
    records, and then the lemmas and theorems. *)

From Stdlib Require Import ZArith Lia List Sorted Ascii String.
From stdpp Require Import base list gmap pretty sorting.

Local Open Scope Z_scope.

(* ===================================================================== *)
(** * JavaScript primitives                                                *)
(* ===================================================================== *)

Module JS.

(** A JavaScript string is a sequence of UTF-16 code units. *)
Abbreviation char16 := N (only parsing).
Abbreviation jsstring := (list N) (only parsing).

(** ASCII literals. *)
Definition lit (s : string) : jsstring :=
  N_of_ascii <$> list_ascii_of_string s.

(** The values a JSON record field (or an array cell) can hold here.
    Numbers are restricted to integers; nested objects and arrays do not
    occur in the records the board is fed. *)
Inductive jsval :=
| JUndefined
| JNull
| JBool (b : bool)
| JNum (n : Z)
| JStr (s : jsstring).

#[global] Instance jsval_eq_dec : EqDecision jsval.
Proof. solve_decision. Defined.

(** [v ? a : b] takes the first branch on a truthy [v]. *)
Definition truthy (v : jsval) : bool :=
  match v with
  | JUndefined | JNull => false
  | JBool b => b
  | JNum n => negb (n =? 0)
  | JStr s => negb (bool_decide (s = []))
  end.

(** [v.toString()].  [undefined] and [null] have no such method; callers
    in this development only reach it with a string, a number or a
    boolean (see [Display.loadRow]). *)
Definition toString (v : jsval) : jsstring :=
  match v with
  | JStr s => s
  | JNum n => lit (pretty n)
  | JBool true => lit "true"
  | JBool false => lit "false"
  | JNull | JUndefined => []
  end.

(** [typeof v === 'undefined'] for an array cell read by index: out of
    range reads give [undefined] as well. *)
Definition is_undefined (cell : option jsval) : bool :=
  match cell with
  | None | Some JUndefined => true
  | Some _ => false
  end.

(** [arr[i] = v]: in range it overwrites, out of range the array is
    extended and the cells in between are holes (read as [undefined]). *)
Definition array_set (arr : list jsval) (i : nat) (v : jsval) : list jsval :=
  if decide (i < length arr)%nat then <[i := v]> arr
  else arr ++ replicate (i - length arr) JUndefined ++ [v].

(** [s.split('')]: one single-unit string per code unit. *)
Definition split_chars (s : jsstring) : list jsval :=
  (λ u, JStr [u]) <$> s.

(** [arr.indexOf(x)] with strict equality, [-1] when absent. *)
Fixpoint indexOf_from (arr : list jsstring) (x : jsval) (i : Z) : Z :=
  match arr with
  | [] => -1
  | y :: arr' => if decide (JStr y = x) then i else indexOf_from arr' x (i + 1)
  end.

Definition indexOf (arr : list jsstring) (x : jsval) : Z := indexOf_from arr x 0.

(** [x >> 0]: conversion to a signed 32-bit integer. *)
Definition toInt32 (x : Z) : Z := (x + 2 ^ 31) mod 2 ^ 32 - 2 ^ 31.

(** [a % b] on integers: the sign follows the dividend; [NaN] ([None])
    when the divisor is zero. *)
Definition js_rem (a b : Z) : option Z :=
  if b =? 0 then None else Some (Z.rem a b).

(** [arr.splice(start, deleteCount)]: the removed elements and what is
    left of the array.  A [NaN] start counts as 0, a negative start is
    relative to the end. *)
Definition splice {A} (arr : list A) (start : option Z) (deleteCount : Z)
  : list A * list A :=
  let len := Z.of_nat (length arr) in
  let relativeStart := default 0 start in
  let actualStart :=
    if relativeStart <? 0 then Z.max (len + relativeStart) 0
    else Z.min relativeStart len in
  let actualDeleteCount := Z.min (Z.max deleteCount 0) (len - actualStart) in
  let a := Z.to_nat actualStart in
  let d := Z.to_nat actualDeleteCount in
  (take d (drop a arr), take a arr ++ drop (a + d) arr).

(** [arr.slice(start, end)] with the same treatment of negative bounds. *)
Definition slice {A} (arr : list A) (start stop : Z) : list A :=
  let len := Z.of_nat (length arr) in
  let k := if start <? 0 then Z.max (len + start) 0 else Z.min start len in
  let f := if stop <? 0 then Z.max (len + stop) 0 else Z.min stop len in
  take (Z.to_nat (Z.max (f - k) 0)) (drop (Z.to_nat k) arr).

(** [Array.prototype.rotate] as the file installs it:
    [unshift.apply(this, splice.call(this, count % len, len))]. *)
Definition rotate {A} (this : list A) (count : Z) : list A :=
  let len := Z.of_nat (length this) in
  let count := toInt32 count in
  let '(removed, rest) := splice this (js_rem count len) len in
  removed ++ rest.

(** JavaScript numbers that can be infinite or [NaN]; used where the code
    divides or substitutes [Number.POSITIVE_INFINITY]. *)
Inductive num :=
| Fin (z : Z)
| PInf
| NInf
| NaN.

Definition num_sub (a b : num) : num :=
  match a, b with
  | NaN, _ | _, NaN => NaN
  | Fin x, Fin y => Fin (x - y)
  | PInf, PInf | NInf, NInf => NaN
  | PInf, _ | _, NInf => PInf
  | NInf, _ | _, PInf => NInf
  end.

(** [a < b] on such numbers ([false] as soon as one side is [NaN]). *)
Definition num_ltb (a b : num) : bool :=
  match a, b with
  | NaN, _ | _, NaN => false
  | Fin x, Fin y => x <? y
  | NInf, NInf | PInf, _ => false
  | NInf, _ | _, PInf => true
  | Fin _, NInf => false
  end.

(** [Math.ceil(a / b)] for integers [a], [b]. *)
Definition ceil_div (a b : Z) : num :=
  if b =? 0 then
    (if a =? 0 then NaN else if 0 <? a then PInf else NInf)
  else Fin (- ((- a) / b)).

End JS.

Import JS.

(* ===================================================================== *)
(** * The display engine ([sf.display], [sf.board])                        *)
(* ===================================================================== *)

Module Display.

Definition blank : jsstring := lit " ".

(** What the engine needs from its host: [String.prototype.toUpperCase]
    (of which only two facts are used: it maps the empty string and the
    single space to themselves) and the selector engine, deciding whether
    a status sub-element, given by its class list, is matched by a
    selector. *)
Class Runtime := {
  toUpperCase : jsstring → jsstring;
  selects : jsstring → list jsstring → bool;
  toUpperCase_empty : toUpperCase [] = [];
  toUpperCase_blank : toUpperCase blank = blank
}.

(** ** Drum arrays *)
Definition FullDrum : list jsstring :=
  (lit <$> [" "; "A"; "B"; "C"; "D"; "E"; "F"; "G"; "H"; "I"; "J"; "K"; "L";
            "M"; "N"; "O"; "P"; "Q"; "R"; "S"; "T"; "U"; "V"; "W"; "X"; "Y";
            "Z"; "0"; "1"; "2"; "3"; "4"; "5"; "6"; "7"; "8"; "9"; "."; ",";
            "?"; "!"; "/"; "'"; "+"; "-"; ":"; "@"; "#"]%string)
  ++ [[8593%N]; [8595%N]].

Definition CharDrum : list jsstring :=
  lit <$> [" "; "A"; "B"; "C"; "D"; "E"; "F"; "G"; "H"; "I"; "J"; "K"; "L";
           "M"; "N"; "O"; "P"; "Q"; "R"; "S"; "T"; "U"; "V"; "W"; "X"; "Y";
           "Z"; "."; ","]%string.

Definition NumDrum : list jsstring :=
  lit <$> [" "; "0"; "1"; "2"; "3"; "4"; "5"; "6"; "7"; "8"; "9"; "."; ","]%string.

(** Intentionally empty in the source (plugins may override it). *)
Definition ImageDrum : list jsstring := [].

(** ** Slots

    A slot is one [<span>]: the drum stored under its [order] datum, its
    [class] attribute once the queued fades have run, and the classes its
    effect queue has been asked to show, oldest first.  [divClass] is the
    class name of the enclosing [<div>]. *)
Record Slot := mkSlot {
  divClass : jsstring;
  order : list jsstring;
  className : jsstring;
  fx : list jsstring
}.

(** Class names of the characters [show] treats specially. *)
Definition special_class : list (jsstring * jsstring) :=
  [ (lit " ", lit "csp"); (lit ".", lit "cper"); (lit ",", lit "ccom");
    (lit "?", lit "cque"); (lit "!", lit "cexc"); (lit "/", lit "csla");
    (lit "'", lit "capo"); (lit "+", lit "cplu"); (lit "-", lit "cmin");
    (lit ":", lit "ccol"); (lit "@", lit "cat"); (lit "#", lit "chsh");
    ([8593%N], lit "cup"); ([8595%N], lit "cdn"); (lit "%", lit "cpct") ].

Fixpoint switch_class (cases : list (jsstring * jsstring)) (i c : jsstring) : jsstring :=
  match cases with
  | [] => c
  | (k, v) :: cases' => if decide (i = k) then v else switch_class cases' i c
  end.

Definition show_class (i : jsstring) (isChar : bool) : jsstring :=
  let c := if isChar then lit "c" ++ i else i in
  switch_class special_class i c.

(** [sf.display.show]: queue a fade-out, a class swap and a fade-in. *)
Definition show (container : Slot) (i : jsstring) (isChar : bool) : Slot :=
  let c := show_class i isChar in
  {| divClass := divClass container; order := order container;
     className := c; fx := fx container ++ [c] |}.

(** The drum index [sf.display.change] steps to. *)
Definition target_index (values : list jsstring) (c : jsval) : Z :=
  let index := indexOf values c in
  if decide (index = -1) then indexOf values (JStr blank) else index.

(** The body of [for (let i = 0; i < index; i++) show(container, values[i + 1], isChar)],
    from [i] on, with [n] iterations left.  [index] is below the length of
    [values], so [values[i + 1]] is always there ([increment_foldl]). *)
Fixpoint increment (values : list jsstring) (isChar : bool) (n i : nat)
    (container : Slot) : Slot :=
  match n with
  | O => container
  | S n' =>
      let container :=
        match values !! S i with
        | Some v => show container v isChar
        | None => container
        end in
      increment values isChar n' (S i) container
  end.

(** [sf.display.change] *)
Definition change (container : Slot) (c : jsval) (isChar : bool) : Slot :=
  let values := order container in
  let index := target_index values c in
  let container := increment values isChar (Z.to_nat index) 0 container in
  {| divClass := divClass container; order := rotate values index;
     className := className container; fx := fx container |}.

(** ** Groups, rows and the board

    A status group holds sub-elements that can be highlighted (class
    [on]); an image group holds one display element; every other group is
    a run of character elements.  The constructor stands for the DOM
    tests [hasClass('status')] and [find('.image').length > 0]. *)
Record StatusElem := mkStatusElem {
  sclasses : list jsstring;
  son : bool
}.

Inductive GroupBody :=
| Status (divs : list StatusElem)
| Image (span : Slot)
| Text (elements : list Slot).

(** [classes] is the group's [class] attribute split on white space;
    [contents] its [contents] datum. *)
Record Group := mkGroup {
  classes : list jsstring;
  body : GroupBody;
  contents : jsval
}.

Abbreviation Row := (list Group) (only parsing).
Abbreviation Board := (list (list Group)) (only parsing).

(** A record of the dataset: a JSON object read by the name of its own
    fields. *)
Abbreviation DataItem := (gmap (list N) jsval) (only parsing).

(** The four drum kinds and the [switch] of [initRow] on the class name
    of the enclosing [<div>]. *)
Inductive DrumKind := FullKind | CharacterKind | NumericKind | ImageKind.

Definition drum (k : DrumKind) : list jsstring :=
  match k with
  | FullKind => FullDrum
  | CharacterKind => CharDrum
  | NumericKind => NumDrum
  | ImageKind => ImageDrum
  end.

Definition kind_of_class (cls : jsstring) : DrumKind :=
  if decide (cls = lit "number") then NumericKind
  else if decide (cls = lit "character") then CharacterKind
  else if decide (cls = lit "image") then ImageKind
  else FullKind.

Definition drum_for (cls : jsstring) : list jsstring := drum (kind_of_class cls).

(** The body of [initRow] for one [<span>]: attach a fresh drum, then
    [change(span, ' ')]. *)
Definition initSpan (span : Slot) : Slot :=
  let span := {| divClass := divClass span; order := drum_for (divClass span);
                 className := className span; fx := fx span |} in
  change span (JStr blank) false.

Definition initGroup (g : Group) : Group :=
  {| classes := classes g;
     body := match body g with
             | Status divs => Status divs
             | Image span => Image (initSpan span)
             | Text elements => Text (initSpan <$> elements)
             end;
     contents := contents g |}.

Definition initRow (row : Row) : Row := initGroup <$> row.

(** [sf.board.init] followed by [sf.Board.render]: [numRows] copies of the
    template (5 when the option is falsy), each initialised. *)
Definition board_init (numRows : Z) (template : Row) : Board :=
  let numRows := if numRows =? 0 then 5 else numRows in
  initRow <$> replicate (Z.to_nat numRows) template.

Section WithRuntime.
Context `{Runtime}.

(** [for (let i = 0; i < strLen; i++) if (typeof characters[i] === 'undefined') characters[i] = ' '],
    from [i] on, with [n] iterations left. *)
Fixpoint pad (n i : nat) (characters : list jsval) : list jsval :=
  match n with
  | O => characters
  | S n' =>
      let characters :=
        if is_undefined (characters !! i) then array_set characters i (JStr blank)
        else characters in
      pad n' (S i) characters
  end.

(** The per-element characters [loadGroup] computes for a group of
    [strLen] elements. *)
Definition group_characters (input : jsstring) (strLen : nat) : list jsval :=
  let input := toUpperCase input in
  let characters := split_chars input in
  let characters := pad strLen 0 characters in
  slice characters 0 (Z.of_nat strLen).

(** [for (let i = 0; i < characters.length; i++) change($(elements[i]).find('span'), characters[i], true)];
    [characters] has been cut to the number of elements, so [elements[i]]
    and [characters[i]] are always there ([length_group_characters]). *)
Fixpoint assign (characters : list jsval) (n i : nat) (elements : list Slot)
  : list Slot :=
  match n with
  | O => elements
  | S n' =>
      let elements :=
        match characters !! i with
        | Some c => alter (λ span, change span c true) i elements
        | None => elements
        end in
      assign characters n' (S i) elements
  end.

(** [sf.display.loadGroup], as the state it leaves when it returns; the
    exception of its status branch is in module [Throwing]. *)
Definition loadGroup (input : jsstring) (target : Group) : Group :=
  let body' :=
    match body target with
    | Status divs =>
        let divs := (λ d, {| sclasses := sclasses d; son := false |}) <$> divs in
        Status ((λ d, if selects (lit ".s" ++ input) (sclasses d)
                      then {| sclasses := sclasses d; son := true |}
                      else d) <$> divs)
    | Image span => Image (change span (JStr input) false)
    | Text elements =>
        let strLen := length elements in
        let characters := group_characters input strLen in
        Text (assign characters (length characters) 0 elements)
    end in
  {| classes := classes target; body := body'; contents := contents target |}.

(** [sf.board.clearRow] *)
Definition clearRow (row : Row) : Row := loadGroup blank <$> row.

(** [data[c]] where [c] is the group's second class name. *)
Definition field (data : DataItem) (g : Group) : jsval :=
  let c := default (lit "undefined") (classes g !! 1%nat) in
  default JUndefined (data !! c).

(** The callback [loadRow] runs on each group of the row. *)
Definition load_field (data : DataItem) (g : Group) : Group :=
  let d := if truthy (field data g) then field data g else JStr [] in
  let g := loadGroup (toString d) g in
  {| classes := classes g; body := body g; contents := d |}.

(** [sf.display.loadRow] *)
Definition loadRow (data : DataItem) (row : Row) : Row :=
  load_field data <$> row.

(** What one pass of the sequencer does, in order. *)
Inductive RowAction :=
| LoadRow (i : nat) (data : DataItem)
| ClearRow (i : nat)
| BoardRendered.

(** The timer callback of [sf.display.loadSequentially], re-armed while
    [i < rows.length]; [fuel] bounds the number of callbacks run.  A row
    index past the end of the board selects no element, and loading or
    clearing it changes nothing. *)
Fixpoint loop (fuel : nat) (input : list DataItem) (i : nat) (rows : Board)
    (log : list RowAction) : option (Board * list RowAction) :=
  match fuel with
  | O => None
  | S fuel' =>
      let '(rows, log) :=
        match input !! i with
        | Some data => (alter (loadRow data) i rows, log ++ [LoadRow i data])
        | None => (alter clearRow i rows, log ++ [ClearRow i])
        end in
      let i := S i in
      if decide (i < length rows)%nat then loop fuel' input i rows log
      else Some (rows, log ++ [BoardRendered])
  end.

(** [sf.display.loadSequentially] *)
Definition loadSequentially (fuel : nat) (input : list DataItem) (container : Board)
  : option (Board * list RowAction) :=
  loop fuel input 0 container [].

(** What [sf.board.reset] does, in order. *)
Inductive ResetAction :=
| ResetRow (i : nat)
| ReloadPage.

(** The timer callback of [sf.board.reset], re-armed while
    [i < rows.length]; after the last row the page reload is scheduled.
    [fuel] bounds the number of callbacks run. *)
Fixpoint reset_loop (fuel : nat) (i : nat) (rows : Board) (log : list ResetAction)
  : option (Board * list ResetAction) :=
  match fuel with
  | O => None
  | S fuel' =>
      let rows := alter clearRow i rows in
      let log := log ++ [ResetRow i] in
      let i := S i in
      if decide (i < length rows)%nat then reset_loop fuel' i rows log
      else Some (rows, log ++ [ReloadPage])
  end.

(** [sf.board.reset] *)
Definition reset (fuel : nat) (rows : Board) : option (Board * list ResetAction) :=
  reset_loop fuel 0 rows [].

End WithRuntime.

End Display.

Import Display.

(* ===================================================================== *)
(** * The loading functions with the exception of the selector engine     *)
(* ===================================================================== *)

(** How a call ends: it returns, or it is left by the exception jQuery
    raises on a selector it cannot parse; either way with the state of the
    elements reached by then. *)
Inductive Outcome (A : Type) :=
| Returned (a : A)
| Thrown (a : A).

Arguments Returned {A} a.
Arguments Thrown {A} a.

(** The state a call leaves. *)
Definition state_of {A} (o : Outcome A) : A :=
  match o with
  | Returned a | Thrown a => a
  end.

(** The parser of the selector engine: whether [find(selector)] accepts
    the selector (it raises a syntax error otherwise).  Two facts are
    used: it accepts [.s] and [.s ] (a class selector, also when followed
    by white space), the selectors of an empty datum and of [clearRow]. *)
Class Selectors := {
  parses : jsstring → bool;
  parses_empty : parses (lit ".s") = true;
  parses_blank : parses (lit ".s" ++ blank) = true
}.

(** In module [Display] the status branch of [loadGroup] is the state the
    call leaves when it returns.  Here the same functions are given with
    the exception [target.find('.s' + input)] raises when the selector
    does not parse: it leaves [loadGroup], the callback of [each],
    [loadRow] and the timer callback of [loadSequentially], which has no
    handler, so that the row index is not advanced and the timer is not
    re-armed. *)
Module Throwing.

Section WithHost.
Context `{Runtime} `{Selectors}.

(** [sf.display.loadGroup]: in the status branch [removeClass('on')] has
    run when [find] raises. *)
Definition loadGroup (input : jsstring) (target : Group) : Outcome Group :=
  match body target with
  | Status divs =>
      let divs := (λ d, {| sclasses := sclasses d; son := false |}) <$> divs in
      if parses (lit ".s" ++ input) then
        Returned
          {| classes := classes target;
             body := Status ((λ d, if selects (lit ".s" ++ input) (sclasses d)
                                   then {| sclasses := sclasses d; son := true |}
                                   else d) <$> divs);
             contents := contents target |}
      else
        Thrown {| classes := classes target; body := Status divs;
                  contents := contents target |}
  | Image span =>
      Returned {| classes := classes target;
                  body := Image (change span (JStr input) false);
                  contents := contents target |}
  | Text elements =>
      let strLen := length elements in
      let characters := group_characters input strLen in
      Returned {| classes := classes target;
                  body := Text (assign characters (length characters) 0 elements);
                  contents := contents target |}
  end.

(** [groups.each(callback)]: the callback on each group in turn; an
    exception leaves the loop, the groups after it untouched. *)
Fixpoint each (callback : Group → Outcome Group) (groups : list Group)
  : Outcome (list Group) :=
  match groups with
  | [] => Returned []
  | g :: groups' =>
      match callback g with
      | Thrown g' => Thrown (g' :: groups')
      | Returned g' =>
          match each callback groups' with
          | Returned rest => Returned (g' :: rest)
          | Thrown rest => Thrown (g' :: rest)
          end
      end
  end.

(** [sf.board.clearRow] *)
Definition clearRow (row : Row) : Outcome Row := each (loadGroup blank) row.

(** The callback [loadRow] runs on each group of the row: the [contents]
    datum is stored after [loadGroup] has returned. *)
Definition load_field (data : DataItem) (g : Group) : Outcome Group :=
  let d := if truthy (field data g) then field data g else JStr [] in
  match loadGroup (toString d) g with
  | Returned g => Returned {| classes := classes g; body := body g; contents := d |}
  | Thrown g => Thrown g
  end.

(** [sf.display.loadRow] *)
Definition loadRow (data : DataItem) (row : Row) : Outcome Row :=
  each (load_field data) row.

(** A row function on [rows[i]]; an index past the end of the board
    selects no element. *)
Definition on_row (f : Row → Outcome Row) (i : nat) (rows : Board) : Outcome Board :=
  match rows !! i with
  | Some row =>
      match f row with
      | Returned row' => Returned (<[i := row']> rows)
      | Thrown row' => Thrown (<[i := row']> rows)
      end
  | None => Returned rows
  end.

(** The timer callback of [sf.display.loadSequentially], re-armed while
    [i < rows.length]; [fuel] bounds the number of callbacks run.  When
    the row action raises, the callback is left before [i++]: the action
    begun is the last of the log and no other callback follows. *)
Fixpoint loop (fuel : nat) (input : list DataItem) (i : nat) (rows : Board)
    (log : list RowAction) : option (Outcome (Board * list RowAction)) :=
  match fuel with
  | O => None
  | S fuel' =>
      let '(acted, action) :=
        match input !! i with
        | Some data => (on_row (loadRow data) i rows, LoadRow i data)
        | None => (on_row clearRow i rows, ClearRow i)
        end in
      let log := log ++ [action] in
      match acted with
      | Thrown rows => Some (Thrown (rows, log))
      | Returned rows =>
          let i := S i in
          if decide (i < length rows)%nat then loop fuel' input i rows log
          else Some (Returned (rows, log ++ [BoardRendered]))
      end
  end.

(** [sf.display.loadSequentially] *)
Definition loadSequentially (fuel : nat) (input : list DataItem) (container : Board)
  : option (Outcome (Board * list RowAction)) :=
  loop fuel input 0 container [].

End WithHost.

End Throwing.

(* ===================================================================== *)
(** * The pager ([sf.Items.update])                                        *)
(* ===================================================================== *)

Module Pager.

(** The options [update] reads; [None] is an option left out. *)
Record Options := mkOptions {
  numRows : Z;
  maxResults : option Z;
  pageInterval : option Z
}.

(** [options.maxResults || options.numRows] *)
Definition effective_maxResults (options : Options) : Z :=
  match maxResults options with
  | Some m => if m =? 0 then numRows options else m
  | None => numRows options
  end.

(** [results.length <= maxResults ? results.length : maxResults] *)
Definition numResults (options : Options) (results : list DataItem) : Z :=
  let len := Z.of_nat (length results) in
  if len <=? effective_maxResults options then len else effective_maxResults options.

(** [Math.ceil(numResults / numRows)] *)
Definition numPages (options : Options) (results : list DataItem) : num :=
  ceil_div (numResults options results) (numRows options).

(** What the pager does during one fetch cycle, in order: the record
    lists it hands to the sequencer, then the timer re-arming [update]. *)
Inductive PagerEvent :=
| ShowPage (records : list DataItem)
| Refresh.

Section WithRuntime.
Context `{Runtime}.

(** One call of [loadSequentially(results.slice(i, i + numRows), container)]
    followed by [i += numRows; page++].  The sequencer pass is run to its
    end on the board: the passes of successive pages reach any given row
    in page order, whatever the two timer periods are. *)
Definition show_page (fuel : nat) (results : list DataItem) (numRows i : Z)
    (st : Board * list PagerEvent) : option (Board * list PagerEvent) :=
  let records := slice results i (i + numRows) in
  '(board, _) ← loadSequentially fuel records (fst st);
  Some (board, snd st ++ [ShowPage records]).

(** The timer callback of [paginate], re-armed while [page < numPages]. *)
Fixpoint paginate (fuel ticks : nat) (results : list DataItem) (numRows : Z)
    (numPages : num) (i page : Z) (st : Board * list PagerEvent)
  : option (Board * list PagerEvent) :=
  match fuel with
  | O => None
  | S fuel' =>
      st ← show_page ticks results numRows i st;
      let i := i + numRows in
      let page := page + 1 in
      if num_ltb (Fin page) numPages
      then paginate fuel' ticks results numRows numPages i page st
      else Some (fst st, snd st ++ [Refresh])
  end.

(** The [success] callback of [sf.Items.update], up to the moment the
    next [update] is scheduled.  [fuel] bounds the number of timer
    callbacks, of the pager and of each sequencer pass. *)
Definition update (fuel : nat) (options : Options) (results : list DataItem)
    (container : Board) : option (Board * list PagerEvent) :=
  let numRows := numRows options in
  let numPages := numPages options results in
  let i := 0 in
  let page := 0 in
  st ← show_page fuel results numRows i (container, []);
  let i := i + numRows in
  let page := page + 1 in
  if num_ltb (Fin page) numPages
  then paginate fuel fuel results numRows numPages i page st
  else Some (fst st, snd st ++ [Refresh]).

End WithRuntime.

(** The record lists shown during a cycle. *)
Definition pages (events : list PagerEvent) : list (list DataItem) :=
  omap (λ e, match e with ShowPage r => Some r | Refresh => None end) events.

End Pager.

(* ===================================================================== *)
(** * The backend list ([app.js])                                          *)
(* ===================================================================== *)

Module Backend.

(** One entry of [stopTimes]: the departure time in epoch seconds when
    [departure.time] is present, the route id and the destination name
    (empty when absent). *)
Record StopTime := mkStopTime {
  departure_time : option Z;
  st_route_id : jsstring;
  st_destination : jsstring
}.

(** What one call of [get_stop_times] sees: the clock ([Date.now()], in
    milliseconds), the stop name and the stop times of the response. *)
Record Feed := mkFeed {
  now_ms : Z;
  stop_name : jsstring;
  stopTimes : list StopTime
}.

Record Arrival := mkArrival {
  route_id : jsstring;
  arrival_time : jsval;
  current_stop : jsstring;
  last_stop_name : jsstring;
  service_status : jsstring
}.

(** [Math.floor((departureTs - Date.now() / 1000) / 60)], in exact
    arithmetic. *)
Definition minutes_to_leave (now_ms departureTs : Z) : Z :=
  (departureTs * 1000 - now_ms) / 60000.

(** [get_stop_times]: entries strictly in the future carry the number of
    minutes, entries due within the minute carry the string ['0'], the
    others are left out. *)
Definition get_stop_times (feed : Feed) : list Arrival :=
  omap (λ stop_time,
          match departure_time stop_time with
          | None => None
          | Some departureTs =>
              let arrival_time := minutes_to_leave (now_ms feed) departureTs in
              if 0 <? arrival_time then
                Some {| route_id := st_route_id stop_time;
                        arrival_time := JNum arrival_time;
                        current_stop := stop_name feed;
                        last_stop_name := st_destination stop_time;
                        service_status := [] |}
              else if arrival_time =? 0 then
                Some {| route_id := st_route_id stop_time;
                        arrival_time := JStr (lit "0");
                        current_stop := stop_name feed;
                        last_stop_name := st_destination stop_time;
                        service_status := [] |}
              else None
          end) (stopTimes feed).

(** The sort key of the comparator:
    [typeof a.arrival_time === 'number' ? a.arrival_time : Number.POSITIVE_INFINITY]. *)
Definition sort_key (a : Arrival) : num :=
  match arrival_time a with
  | JNum n => Fin n
  | _ => PInf
  end.

(** The comparator: [aa - bb]. *)
Definition compare (a b : Arrival) : num := num_sub (sort_key a) (sort_key b).

(** [Array.prototype.sort(comparefn)]: a stable sort (the image runs
    Node 18); [b] goes before [a] exactly when [comparefn(a, b) > 0] (a
    [NaN] result counts as 0). *)
Fixpoint sort_insert (comparefn : Arrival → Arrival → num) (x : Arrival)
    (l : list Arrival) : list Arrival :=
  match l with
  | [] => [x]
  | y :: l' =>
      if num_ltb (Fin 0) (comparefn x y) then y :: sort_insert comparefn x l'
      else x :: y :: l'
  end.

Definition sort (comparefn : Arrival → Arrival → num) (l : list Arrival) : list Arrival :=
  foldr (sort_insert comparefn) [] l.

(** [fetchAndWrite]: the stop times of the station and of its transfer
    stations ([feeds], in that order), each given the status of its
    route (['Unknown'] when there is none), sorted. *)
Definition fetchAndWrite (feeds : list Feed) (status : gmap (list N) jsstring)
  : list Arrival :=
  let result := mbind get_stop_times feeds in
  let combined_results :=
    (λ stop,
       let st := default [] (status !! route_id stop) in
       {| route_id := route_id stop;
          arrival_time := arrival_time stop;
          current_stop := current_stop stop;
          last_stop_name := last_stop_name stop;
          service_status := if decide (st = []) then lit "Unknown" else st |})
      <$> result in
  sort compare combined_results.

(** One element of the [/api/arrivals] answer. *)
Definition arrival_item (entry : Arrival) : DataItem :=
  let changed :=
    bool_decide (service_status entry = lit "SERVICE CHANGE")
    || bool_decide (service_status entry = lit "DELAYS") in
  {[ lit "line" := JStr (route_id entry);
     lit "stop" := JStr (current_stop entry);
     lit "terminal" := JStr (last_stop_name entry);
     lit "scheduled" := arrival_time entry;
     lit "remarks" := JStr (service_status entry);
     lit "status" := JStr (if changed then lit "B" else lit "A") ]}.

(** The [/api/arrivals] handler: the first 45 entries of [jsonData]. *)
Definition arrivals (jsonData : list Arrival) : list DataItem :=
  arrival_item <$> take (Z.to_nat (Z.min 45 (Z.of_nat (length jsonData)))) jsonData.

(** The [scheduled] field of a served record. *)
Definition scheduled (item : DataItem) : jsval :=
  default JUndefined (item !! lit "scheduled").

(** The number of minutes a [scheduled] value stands for: the number
    itself, and 0 for the zero marker. *)
Definition scheduled_minutes (v : jsval) : Z :=
  match v with
  | JNum n => n
  | _ => 0
  end.

(** One entry of [transfers]: the ids of [fromStop] and [toStop], when
    present. *)
Record Transfer := mkTransfer {
  fromStop : option jsstring;
  toStop : option jsstring
}.

(** [get_transfer_stations]: the targets of the transfers leaving
    [station]. *)
Definition get_transfer_stations (station : jsstring) (transfers : list Transfer)
  : list jsstring :=
  omap (λ transfer,
          match fromStop transfer, toStop transfer with
          | Some from, Some to =>
              if decide (from = station) then Some to else None
          | _, _ => None
          end) transfers.

(** One alert of a route: [alert.cause || ''] and [alert.effect || '']. *)
Record Alert := mkAlert {
  al_cause : jsstring;
  al_effect : jsstring
}.

(** One entry of [routes]: its id and [route.alerts || []]. *)
Record Route := mkRoute {
  rt_id : jsstring;
  rt_alerts : list Alert
}.

(** [s.includes(sub)] *)
Definition includes (s sub : jsstring) : bool :=
  existsb (λ k, bool_decide (take (length sub) (drop k s) = sub))
    (seq 0 (S (length s))).

Section WithRuntime.
Context `{Runtime}.

(** [contains_delay] *)
Definition contains_delay (value : jsstring) : bool :=
  if decide (value = []) then false
  else includes (toUpperCase value) (lit "MAINTENANCE").

(** The loop of [get_service_status] over the alerts of a route, left at
    the first alert whose cause or effect is a maintenance. *)
Fixpoint delay_found (alerts : list Alert) : bool :=
  match alerts with
  | [] => false
  | alert :: alerts' =>
      if contains_delay (al_cause alert) || contains_delay (al_effect alert)
      then true
      else delay_found alerts'
  end.

(** The status [get_service_status] records for one route. *)
Definition route_status (route : Route) : jsstring :=
  if decide (rt_alerts route = []) then lit "Good Service"
  else if delay_found (rt_alerts route) then lit "SERVICE CHANGE"
  else lit "DELAYS".

(** [get_service_status]: the [status] recorded under each route id; a
    later entry of [routes] with the same id overwrites an earlier one. *)
Definition get_service_status (routes : list Route) : gmap (list N) jsstring :=
  foldl (λ results route, <[rt_id route := route_status route]> results) ∅ routes.

(** One run of [fetchAndWrite] from the answers of the remote service:
    the stop times of [station] and of the targets of its transfers
    ([stops] gives the answer for a stop id), and the route statuses. *)
Definition refresh (station : jsstring) (stops : jsstring → Feed)
    (transfers : list Transfer) (routes : list Route) : list Arrival :=
  fetchAndWrite
    (stops station :: (stops <$> get_transfer_stations station transfers))
    (get_service_status routes).

End WithRuntime.

End Backend.

Import Pager Backend.

(* ===================================================================== *)
(** * Specification vocabulary                                             *)
(* ===================================================================== *)

Definition csp : jsstring := lit "csp".

(** Index 0 of the slot's drum is the character the slot displays. *)
Definition displays (isChar : bool) (s : Slot) : Prop :=
  match order s with
  | v :: _ => className s = show_class v isChar
  | [] => False
  end.

#[global] Instance displays_dec isChar s : Decision (displays isChar s).
Proof. unfold displays. destruct (order s); apply _. Defined.

(** A slot in working order: its drum has the blank, is short enough for
    the 32-bit conversion of [rotate], and index 0 is what is displayed. *)
Definition slot_ok (isChar : bool) (s : Slot) : Prop :=
  blank ∈ order s ∧ Z.of_nat (length (order s)) < 2 ^ 31 ∧ displays isChar s.

#[global] Instance slot_ok_dec isChar s : Decision (slot_ok isChar s).
Proof. unfold slot_ok. apply _. Defined.

(** The character a target resolves to on a drum: itself when the drum has
    it, the blank otherwise. *)
Definition resolve (values : list jsstring) (c : jsval) : jsstring :=
  match c with
  | JStr s => if decide (s ∈ values) then s else blank
  | _ => blank
  end.

(** Image slots carry either the empty drum of the source or a drum in
    working order. *)
Definition group_ok (g : Group) : Prop :=
  match body g with
  | Status _ => True
  | Image span => order span = [] ∨ slot_ok false span
  | Text elements => Forall (slot_ok true) elements
  end.

#[global] Instance group_ok_dec g : Decision (group_ok g).
Proof. unfold group_ok. destruct (body g); apply _. Defined.

Definition row_ok (row : Row) : Prop := Forall group_ok row.

#[global] Instance row_ok_dec row : Decision (row_ok row).
Proof. unfold row_ok. apply _. Defined.

(** A slot as a board holds it at any time: its drum is empty, or it has
    the blank and index 0 is either what is displayed or the blank the slot
    has rested on since [initRow] (under whatever class the template gave
    the element). *)
Definition slot_ready (isChar : bool) (s : Slot) : Prop :=
  order s = []
  ∨ (blank ∈ order s ∧ Z.of_nat (length (order s)) < 2 ^ 31
     ∧ (displays isChar s ∨ order s !! 0%nat = Some blank)).

#[global] Instance slot_ready_dec isChar s : Decision (slot_ready isChar s).
Proof. unfold slot_ready. apply _. Defined.

Definition group_ready (g : Group) : Prop :=
  match body g with
  | Status _ => True
  | Image span => slot_ready false span
  | Text elements => Forall (slot_ready true) elements
  end.

#[global] Instance group_ready_dec g : Decision (group_ready g).
Proof. unfold group_ready. destruct (body g); apply _. Defined.

Definition row_ready (row : Row) : Prop := Forall group_ready row.

#[global] Instance row_ready_dec row : Decision (row_ready row).
Proof. unfold row_ready. apply _. Defined.

(** Every character element shows the blank class; an image element does
    unless its drum is empty. *)
Definition group_blank (g : Group) : Prop :=
  match body g with
  | Status _ => True
  | Image span => order span = [] ∨ className span = csp
  | Text elements => Forall (λ s, className s = csp) elements
  end.

Definition row_blank (row : Row) : Prop := Forall group_blank row.

(** What a slot holds: the class it shows and the character at index 0. *)
Definition slot_contents (s : Slot) : jsstring * option jsstring :=
  (className s, order s !! 0%nat).

Definition group_slots (g : Group) : list Slot :=
  match body g with
  | Status _ => []
  | Image span => [span]
  | Text elements => elements
  end.

Definition group_flags (g : Group) : list bool :=
  match body g with
  | Status divs => son <$> divs
  | _ => []
  end.

(** What a group shows: the contents of its slots and its highlights. *)
Definition display_of (g : Group) : list (jsstring * option jsstring) * list bool :=
  (slot_contents <$> group_slots g, group_flags g).

(** What a row holds: per group, what it shows and its [contents] datum. *)
Definition row_contents (row : Row)
  : list (list (jsstring * option jsstring) * list bool * jsval) :=
  (λ g, (display_of g, contents g)) <$> row.

(** The datum [loadRow] loads a group with: [data[c] ? data[c] : '']. *)
Definition datum `{Runtime} (data : DataItem) (g : Group) : jsval :=
  if truthy (field data g) then field data g else JStr [].


(** The character element [i] of a group is sent to when the group is
    loaded with [input]: the [i]-th unit of the uppercased input, the blank
    past its end. *)
Definition target_char `{Runtime} (input : jsstring) (i : nat) : jsval :=
  match toUpperCase input !! i with
  | Some u => JStr [u]
  | None => JStr blank
  end.

Definition exactly_one_blank (alphabet : list jsstring) : Prop :=
  length (filter (λ x, x = blank) alphabet) = 1%nat.

(** The action the sequencer takes on row [i]. *)
Definition row_action (input : list DataItem) (i : nat) : RowAction :=
  match input !! i with
  | Some data => LoadRow i data
  | None => ClearRow i
  end.

Definition action_index (a : RowAction) : option nat :=
  match a with
  | LoadRow i _ | ClearRow i => Some i
  | BoardRendered => None
  end.

(** What the sequencer does to row [i]. *)
Definition act_row `{Runtime} (input : list DataItem) (i : nat) (row : Row) : Row :=
  match input !! i with
  | Some data => loadRow data row
  | None => clearRow row
  end.

(** The board after one sequencer pass. *)
Definition pass `{Runtime} (input : list DataItem) (rows : Board) : Board :=
  imap (act_row input) rows.

(** Page [p] of a record list. *)
Definition page_slice (results : list DataItem) (numRows : Z) (p : nat) : list DataItem :=
  slice results (Z.of_nat p * numRows) ((Z.of_nat p + 1) * numRows).

(** The board after the sequencer passes of the pages [ps], in order. *)
Definition run_pages `{Runtime} (results : list DataItem) (numRows : Z)
    (board : Board) (ps : list nat) : Board :=
  foldl (λ b p, pass (page_slice results numRows p) b) board ps.

(** The events of a cycle showing the pages [ps]. *)
Definition cycle_events (results : list DataItem) (numRows : Z) (ps : list nat)
  : list PagerEvent :=
  ((λ p, ShowPage (page_slice results numRows p)) <$> ps) ++ [Refresh].

(** Order on sort keys: finite keys by value, below [PInf]. *)
Definition key_le (a b : num) : Prop :=
  match a, b with
  | Fin x, Fin y => x ≤ y
  | Fin _, PInf => True
  | PInf, PInf => True
  | _, _ => False
  end.

Definition value_key (v : jsval) : num :=
  match v with
  | JNum n => Fin n
  | _ => PInf
  end.

Definition zero_marker : jsval := JStr (lit "0").

(** The comparator's order on arrivals. *)
Definition by_key (a b : Arrival) : Prop := key_le (sort_key a) (sort_key b).

(** What [get_stop_times] produces as arrival time: a positive number of
    minutes or the zero marker. *)
Definition valid_scheduled (v : jsval) : Prop :=
  v = zero_marker ∨ ∃ n, 0 < n ∧ v = JNum n.

(** The list is ascending in the minutes its [scheduled] values stand for. *)
Definition ascending_scheduled (items : list DataItem) : Prop :=
  Sorted Z.le ((λ item, scheduled_minutes (scheduled item)) <$> items).

(** The Euclidean remainder of [count] by the length of [l], as an index. *)
Definition rotation_index {A} (l : list A) (count : Z) : nat :=
  Z.to_nat (count mod Z.of_nat (length l)).

(** What an arrival carries besides its route status. *)
Definition arrival_core (a : Arrival) : jsstring * jsval * jsstring * jsstring :=
  (route_id a, arrival_time a, current_stop a, last_stop_name a).

(** The string value of a field of a served record. *)
Definition text_field (item : DataItem) (key : string) : option jsval :=
  item !! lit key.

(** The last entry of [routes] carrying the id [id]. *)
Definition last_route (routes : list Route) (id : jsstring) : option Route :=
  last (filter (λ route, rt_id route = id) routes).

(** Two states of one element: the same [<div>] class and the same drum,
    up to its rotation. *)
Definition same_drum (s s' : Slot) : Prop :=
  divClass s' = divClass s ∧ order s' ≡ₚ order s.

(** Two states of one group: the same classes, the same kind, and element
    by element the same drum. *)
Definition same_shape (g g' : Group) : Prop :=
  classes g' = classes g
  ∧ match body g, body g' with
    | Status divs, Status divs' => sclasses <$> divs' = sclasses <$> divs
    | Image span, Image span' => same_drum span span'
    | Text elements, Text elements' => Forall2 same_drum elements elements'
    | _, _ => False
    end.


#[global] Instance num_eq_dec : EqDecision num.
Proof. solve_decision. Defined.

(** An alert that makes [get_service_status] report a service change. *)
Definition maintenance_alert `{Runtime} (alert : Alert) : Prop :=
  contains_delay (al_cause alert) = true ∨ contains_delay (al_effect alert) = true.

(** Loading [input] into the group builds no selector the engine rejects:
    only a status group builds one. *)
Definition group_parses `{Selectors} (input : jsstring) (g : Group) : Prop :=
  match body g with
  | Status _ => parses (lit ".s" ++ input) = true
  | _ => True
  end.

#[global] Instance group_parses_dec `{Selectors} input g : Decision (group_parses input g).
Proof. unfold group_parses. destruct (body g); apply _. Defined.

(** Loading the record [data] into [row] builds no selector the engine
    rejects. *)
Definition row_parses `{Runtime} `{Selectors} (data : DataItem) (row : Row) : Prop :=
  Forall (λ g, group_parses (toString (datum data g)) g) row.

#[global] Instance row_parses_dec `{Runtime} `{Selectors} data row :
  Decision (row_parses data row).
Proof. unfold row_parses. apply _. Defined.

(** An element at rest: index 0 of its drum is the blank (an empty drum
    has no position to rest on). *)
Definition rests (s : Slot) : Prop :=
  order s = [] ∨ order s !! 0%nat = Some blank.

(** What a clear makes of an element: it rests on the blank under the
    blank class, or it rested already and is left as it was (under the
    class the template gave it, when it has not moved since [initRow]). *)
Definition slot_cleared (s s' : Slot) : Prop :=
  rests s' ∧ (className s' = csp ∨ s' = s).

(** What a clear makes of a group; in a status group the sub-elements the
    selector [.s ] matches are highlighted, the others are not. *)
Definition group_cleared `{Runtime} (g g' : Group) : Prop :=
  match body g, body g' with
  | Status divs, Status divs' =>
      divs' = (λ d, {| sclasses := sclasses d;
                       son := selects (lit ".s" ++ blank) (sclasses d) |}) <$> divs
  | Image span, Image span' => slot_cleared span span'
  | Text elements, Text elements' => Forall2 slot_cleared elements elements'
  | _, _ => False
  end.

Definition row_cleared `{Runtime} (row row' : Row) : Prop :=
  Forall2 group_cleared row row'.

(** The number of steps a rotation adds to the effect queue. *)
Definition steps_queued (s s' : Slot) : Z :=
  Z.of_nat (length (fx s')) - Z.of_nat (length (fx s)).

(* ===================================================================== *)
(** * Sample host, board and records                                       *)
(* ===================================================================== *)

Module Samples.

Definition upper_unit (u : N) : N :=
  if ((97 <=? u) && (u <=? 122))%N then (u - 32)%N else u.

Definition ascii_upper (s : jsstring) : jsstring := upper_unit <$> s.

Definition ascii_selects (sel : jsstring) (cls : list jsstring) : bool :=
  bool_decide (Exists (λ c, filter (λ u, u ≠ 32%N) sel = 46%N :: c) cls).

(** A host for Basic Latin input; a selector [.x] matches the elements
    having class [x] (spaces ignored). *)
Definition ascii_runtime : Runtime :=
  {| toUpperCase := ascii_upper;
     selects sel cls :=
       ascii_selects sel cls;
     toUpperCase_empty := eq_refl;
     toUpperCase_blank := eq_refl |}.

Definition span_in (cls shown : string) : Slot :=
  {| divClass := lit cls; order := []; className := lit shown; fx := [] |}.

Definition template : Row :=
  [ {| classes := [lit "group"; lit "line"];
       body := Text [span_in "full" "csp"];
       contents := JUndefined |};
    {| classes := [lit "group"; lit "terminal"];
       body := Text (replicate 4 (span_in "character" "csp"));
       contents := JUndefined |};
    {| classes := [lit "group"; lit "scheduled"];
       body := Text (replicate 2 (span_in "number" "csp"));
       contents := JUndefined |};
    {| classes := [lit "group"; lit "logo"];
       body := Image (span_in "image" "");
       contents := JUndefined |};
    {| classes := [lit "group"; lit "status"];
       body := Status [ {| sclasses := [lit "sA"]; son := false |};
                        {| sclasses := [lit "sB"]; son := false |} ];
       contents := JUndefined |} ].

Definition board (numRows : Z) : Board := board_init numRows template.

Definition item (line terminal : string) (minutes : jsval) (status : string) : DataItem :=
  {[ lit "line" := JStr (lit line);
     lit "terminal" := JStr (lit terminal);
     lit "scheduled" := minutes;
     lit "status" := JStr (lit status) ]}.

Definition r0 : DataItem := item "A" "Park" (JStr (lit "0")) "A".
Definition r1 : DataItem := item "C" "Main" (JNum 5) "A".
Definition r2 : DataItem := item "E" "Dock" (JNum 12) "B".
Definition r3 : DataItem := item "F" "Hill" (JNum 14) "A".
Definition r4 : DataItem := item "G" "Lake" (JNum 20) "A".

Definition five_results : list DataItem := [r0; r1; r2; r3; r4].

Definition capped_options : Options :=
  {| numRows := 2; maxResults := Some 3; pageInterval := None |}.


Definition numeric_slot : Slot :=
  {| divClass := lit "number"; order := NumDrum; className := csp; fx := [] |}.

Definition image_slot : Slot := initSpan (span_in "image" "").

Definition image_group : Group :=
  {| classes := [lit "group"; lit "logo"]; body := Image image_slot;
     contents := JUndefined |}.

(** One station, read at time 0: a train due in 30 seconds and one due
    in 5 minutes. *)
Definition feed : Feed :=
  {| now_ms := 0; stop_name := lit "Canal St";
     stopTimes := [ {| departure_time := Some 30; st_route_id := lit "A";
                       st_destination := lit "Far Rockaway" |};
                    {| departure_time := Some 300; st_route_id := lit "C";
                       st_destination := lit "Euclid Av" |} ] |}.

(** A busier station: trains due in 30 s, 5 min, 45 s and 12 min. *)
Definition busy_feed : Feed :=
  {| now_ms := 0; stop_name := lit "Canal St";
     stopTimes := [ {| departure_time := Some 30; st_route_id := lit "A";
                       st_destination := lit "Far Rockaway" |};
                    {| departure_time := Some 300; st_route_id := lit "C";
                       st_destination := lit "Euclid Av" |};
                    {| departure_time := Some 45; st_route_id := lit "E";
                       st_destination := lit "World Trade Center" |};
                    {| departure_time := Some 720; st_route_id := lit "A";
                       st_destination := lit "Lefferts Blvd" |} ] |}.


(** A cap of two full pages. *)
Definition full_pages_options : Options :=
  {| numRows := 2; maxResults := Some 4; pageInterval := None |}.


Definition zero_rows_options : Options :=
  {| numRows := 0; maxResults := Some 3; pageInterval := None |}.

(** An image element with a drum of three logos and no blank. *)
Definition logo_slot : Slot :=
  {| divClass := lit "image"; order := [lit "mta"; lit "lirr"; lit "path"];
     className := lit "mta"; fx := [] |}.

Definition scheduled_group : Group :=
  {| classes := [lit "group"; lit "scheduled"];
     body := Text (replicate 2 numeric_slot);
     contents := JUndefined |}.

(** The stop a transfer leads to from the sample station: one train due
    in 2 minutes. *)
Definition transfer_feed : Feed :=
  {| now_ms := 0; stop_name := lit "Spring St";
     stopTimes := [ {| departure_time := Some 120; st_route_id := lit "6";
                       st_destination := lit "Pelham Bay Park" |} ] |}.

Definition stops (id : jsstring) : Feed :=
  if decide (id = lit "A34") then feed else transfer_feed.

Definition transfers : list Transfer :=
  [ {| fromStop := Some (lit "A34"); toStop := Some (lit "639") |};
    {| fromStop := Some (lit "R20"); toStop := Some (lit "635") |} ].

(** Route A has no alert, route C a maintenance. *)
Definition routes : list Route :=
  [ {| rt_id := lit "A"; rt_alerts := [] |};
    {| rt_id := lit "C";
       rt_alerts := [ {| al_cause := lit "Maintenance"; al_effect := [] |} ] |} ].

(** The train of route C as [fetchAndWrite] lists it. *)
Definition changed_arrival : Arrival :=
  {| route_id := lit "C"; arrival_time := JNum 5; current_stop := lit "Canal St";
     last_stop_name := lit "Euclid Av"; service_status := lit "SERVICE CHANGE" |}.

(** The train met at the transfer stop. *)
Definition transfer_arrival : Arrival :=
  {| route_id := lit "6"; arrival_time := JNum 2; current_stop := lit "Spring St";
     last_stop_name := lit "Pelham Bay Park"; service_status := lit "Unknown" |}.

(** Code units of a class name: letters, digits, [-] and [_]; white space
    is allowed around it. *)
Definition name_unit (u : N) : bool :=
  ((48 <=? u) && (u <=? 57) || (65 <=? u) && (u <=? 90)
   || (97 <=? u) && (u <=? 122) || (u =? 45) || (u =? 95) || (u =? 32))%N.

(** A parser for class selectors: a dot, then a class name. *)
Definition ascii_parses (sel : jsstring) : bool :=
  match sel with
  | 46%N :: name => forallb name_unit name
  | _ => false
  end.

Definition ascii_selectors : Selectors :=
  {| parses := ascii_parses; parses_empty := eq_refl; parses_blank := eq_refl |}.

(** A record whose status gives the selector [.s#]. *)
Definition r_hash : DataItem := item "A" "Park" (JNum 3) "#".

(** A template whose elements carry no class. *)
Definition plain_template : Row :=
  [ {| classes := [lit "group"; lit "terminal"];
       body := Text (replicate 4 (span_in "character" ""));
       contents := JUndefined |};
    {| classes := [lit "group"; lit "status"];
       body := Status [ {| sclasses := [lit "sA"]; son := false |};
                        {| sclasses := [lit "sB"]; son := false |} ];
       contents := JUndefined |} ].

(** The numeric slot once it shows ['5']. *)
Definition showing_five : Slot := change numeric_slot (JStr (lit "5")) true.

(** A station with 46 trains: one due in 30 seconds, and one due in each
    of 1, 2, ... 45 minutes. *)
Definition crowded_feed : Feed :=
  {| now_ms := 0; stop_name := lit "Canal St";
     stopTimes :=
       {| departure_time := Some 30; st_route_id := lit "A";
          st_destination := lit "Far Rockaway" |}
       :: ((λ k : nat, {| departure_time := Some (60 * Z.of_nat k);
                          st_route_id := lit "C";
                          st_destination := lit "Euclid Av" |}) <$> seq 1 45) |}.

End Samples.

(* ===================================================================== *)
(** * Facts about the primitives                                           *)
(* ===================================================================== *)

Section Primitives.

Lemma indexOf_from_find (arr : list jsstring) (x : jsval) (i : Z) :
  indexOf_from arr x i =
    match list_find (λ y, JStr y = x) arr with
    | Some (k, _) => i + Z.of_nat k
    | None => -1
    end.
Proof.
  revert i. induction arr as [|y arr IH]; intros i; simpl; [done|].
  destruct (decide (JStr y = x)) as [Hy|Hy]; simpl.
  - lia.
  - rewrite IH. destruct (list_find _ arr) as [[k z]|]; simpl; lia.
Qed.

Lemma indexOf_range (arr : list jsstring) (x : jsval) :
  indexOf arr x = -1 ∨ 0 ≤ indexOf arr x < Z.of_nat (length arr).
Proof.
  unfold indexOf. rewrite indexOf_from_find.
  destruct (list_find _ arr) as [[k z]|] eqn:Hf; [right|by left].
  apply list_find_Some in Hf as (Hk & _ & _).
  apply lookup_lt_Some in Hk. lia.
Qed.

Lemma indexOf_found (arr : list jsstring) (x : jsval) (t : Z) :
  indexOf arr x = t → 0 ≤ t →
  ∃ y, x = JStr y ∧ arr !! Z.to_nat t = Some y.
Proof.
  unfold indexOf. rewrite indexOf_from_find.
  destruct (list_find _ arr) as [[k z]|] eqn:Hf; [|lia].
  intros <- _. apply list_find_Some in Hf as (Hk & Hz & _).
  exists z. split; [done|]. by rewrite Z.add_0_l, Nat2Z.id.
Qed.

Lemma indexOf_absent (arr : list jsstring) (x : jsval) :
  indexOf arr x = -1 ↔ ∀ y, y ∈ arr → JStr y ≠ x.
Proof.
  unfold indexOf. rewrite indexOf_from_find.
  destruct (list_find _ arr) as [[k z]|] eqn:Hf.
  - apply list_find_Some in Hf as (Hk & Hz & _). split; [lia|].
    intros Hall. destruct (Hall z); [|done]. by eapply list_elem_of_lookup_2.
  - split; [|done]. intros _ y Hy.
    apply list_find_None in Hf. by eapply (proj1 (Forall_forall _ _)) in Hf.
Qed.

Lemma indexOf_present (arr : list jsstring) (s : jsstring) :
  s ∈ arr → 0 ≤ indexOf arr (JStr s) < Z.of_nat (length arr).
Proof.
  intros Hs. destruct (indexOf_range arr (JStr s)) as [Hn|]; [|done].
  by destruct (proj1 (indexOf_absent _ _) Hn s Hs).
Qed.

Lemma toInt32_small (x : Z) : - 2 ^ 31 ≤ x < 2 ^ 31 → toInt32 x = x.
Proof.
  unfold toInt32. change (2 ^ 31) with 2147483648.
  change (2 ^ 32) with 4294967296. intros Hx. rewrite Z.mod_small; lia.
Qed.

Lemma rotate_nil {A} (count : Z) : rotate (@nil A) count = [].
Proof. reflexivity. Qed.

Lemma rotate_0 {A} (l : list A) : rotate l 0 = l.
Proof.
  unfold rotate, splice, js_rem. change (toInt32 0) with 0.
  destruct (Z.eqb_spec (Z.of_nat (length l)) 0) as [Hz|Hnz]; simpl.
  - destruct l; [done|]. simpl in Hz. lia.
  - rewrite Z.rem_0_l by done. simpl.
    rewrite Z.min_l by lia. rewrite Z.max_l by lia. rewrite Z.min_l by lia.
    simpl. rewrite Nat2Z.id, drop_all, app_nil_r. by rewrite take_ge.
Qed.

(** For an index inside the array, [rotate] is the left rotation. *)
Lemma rotate_left {A} (l : list A) (k : Z) :
  0 ≤ k < Z.of_nat (length l) → Z.of_nat (length l) ≤ 2 ^ 31 →
  rotate l k = drop (Z.to_nat k) l ++ take (Z.to_nat k) l.
Proof.
  intros Hk Hlen. unfold rotate, splice, js_rem.
  rewrite toInt32_small by (change (2 ^ 31) with 2147483648 in *; lia).
  destruct (Z.eqb_spec (Z.of_nat (length l)) 0) as [|_]; [lia|]. simpl.
  rewrite Z.rem_small by lia.
  destruct (Z.ltb_spec k 0) as [|_]; [lia|].
  rewrite (Z.min_l k) by lia.
  rewrite (take_ge (drop _ _)) by (rewrite length_drop; lia).
  rewrite (drop_ge l (_ + _)) by lia.
  by rewrite app_nil_r.
Qed.

Lemma rotate_perm {A} (l : list A) (k : Z) :
  0 ≤ k < Z.of_nat (length l) → Z.of_nat (length l) ≤ 2 ^ 31 →
  rotate l k ≡ₚ l.
Proof.
  intros Hk Hlen. rewrite rotate_left by done.
  rewrite (comm (++)). by rewrite take_drop.
Qed.

(** A slice from 0 of an array at least as long as the bound. *)
Lemma slice_prefix {A} (l : list A) (n : nat) :
  (n ≤ length l)%nat → slice l 0 (Z.of_nat n) = take n l.
Proof.
  intros Hn. unfold slice. simpl.
  destruct (Z.ltb_spec (Z.of_nat n) 0) as [|_]; [lia|].
  rewrite Z.min_l by lia. rewrite Z.min_l by lia. simpl.
  f_equal. lia.
Qed.

(** A page-sized slice at a non-negative offset. *)
Lemma slice_window {A} (l : list A) (i n : Z) :
  0 ≤ i → 0 ≤ n →
  slice l i (i + n) = take (Z.to_nat n) (drop (Z.to_nat i) l).
Proof.
  intros Hi Hn. unfold slice.
  destruct (Z.ltb_spec i 0) as [|_]; [lia|].
  destruct (Z.ltb_spec (i + n) 0) as [|_]; [lia|].
  destruct (Z.le_gt_cases (Z.of_nat (length l)) i) as [Hge|Hlt].
  - rewrite (drop_ge l (Z.to_nat (Z.min _ _))) by lia.
    rewrite (drop_ge l (Z.to_nat i)) by lia. by rewrite !take_nil.
  - rewrite (Z.min_l i) by lia.
    destruct (Z.le_gt_cases (Z.of_nat (length l)) (i + n)) as [Hge'|Hlt'].
    + rewrite Z.min_r by lia.
      rewrite !take_ge; [done| |]; rewrite length_drop; lia.
    + rewrite Z.min_l by lia. f_equal. lia.
Qed.

End Primitives.

(* ===================================================================== *)
(** * The rotation of one slot                                             *)
(* ===================================================================== *)

Section Change.

Lemma foldl_show_fields (isChar : bool) (vs : list jsstring) (s : Slot) :
  let s' := foldl (λ s v, show s v isChar) s vs in
  let steps := (λ v, show_class v isChar) <$> vs in
  divClass s' = divClass s ∧ order s' = order s ∧
  fx s' = fx s ++ steps ∧
  className s' = default (className s) (last steps).
Proof.
  revert s. induction vs as [|v vs IH]; intros s; simpl.
  - by rewrite app_nil_r.
  - destruct (IH (show s v isChar)) as (Hd & Ho & Hf & Hc).
    rewrite Hd, Ho, Hf, Hc. simpl. rewrite <- app_assoc. simpl.
    repeat split. destruct vs as [|w vs]; simpl; [done|].
    destruct (last _) eqn:E; [done|]. by apply last_None in E.
Qed.

Lemma increment_foldl (values : list jsstring) (isChar : bool) (n i : nat) (s : Slot) :
  (S i + n ≤ length values)%nat →
  increment values isChar n i s
  = foldl (λ s v, show s v isChar) s (take n (drop (S i) values)).
Proof.
  revert i s. induction n as [|n IH]; intros i s Hn; [done|].
  destruct (lookup_lt_is_Some_2 values (S i)) as [v Hv]; [lia|].
  cbn [increment]. rewrite Hv, IH by lia.
  by rewrite (drop_S _ _ _ Hv).
Qed.

Lemma target_index_range (values : list jsstring) (c : jsval) :
  target_index values c = -1
  ∨ 0 ≤ target_index values c < Z.of_nat (length values).
Proof.
  unfold target_index. destruct (decide (indexOf values c = -1)).
  - apply indexOf_range.
  - destruct (indexOf_range values c); [done|by right].
Qed.

(** The fields of a slot after [change], when the drum has the target or
    the blank. *)
Lemma change_fields (s : Slot) (c : jsval) (isChar : bool) :
  let t := target_index (order s) c in
  let steps :=
    (λ v, show_class v isChar) <$> take (Z.to_nat t) (drop 1 (order s)) in
  0 ≤ t →
  divClass (change s c isChar) = divClass s
  ∧ order (change s c isChar) = rotate (order s) t
  ∧ fx (change s c isChar) = fx s ++ steps
  ∧ className (change s c isChar) = default (className s) (last steps).
Proof.
  intros t steps Ht. unfold change. fold t. simpl.
  destruct (target_index_range (order s) c) as [Hneg|Hrange]; [fold t in Hneg; lia|].
  fold t in Hrange. rewrite increment_foldl by lia.
  destruct (foldl_show_fields isChar (take (Z.to_nat t) (drop 1 (order s))) s)
    as (Hd & _ & Hf & Hc).
  by rewrite Hd, Hf, Hc.
Qed.

Lemma change_empty (s : Slot) (c : jsval) (isChar : bool) :
  order s = [] → change s c isChar = s.
Proof. destruct s as [d o cl f]. simpl. intros ->. reflexivity. Qed.

(** The last of [n] steps shows the character at index [n]. *)
Lemma last_step {B} (f : jsstring → B) (l : list jsstring) (n : nat) :
  (0 < n < length l)%nat → last (f <$> take n (drop 1 l)) = f <$> l !! n.
Proof.
  intros Hn. rewrite fmap_last, last_lookup.
  rewrite length_take_le by (rewrite length_drop; lia).
  rewrite lookup_take_lt by lia. rewrite lookup_drop. f_equal. f_equal. lia.
Qed.

Lemma target_index_resolve (values : list jsstring) (c : jsval) :
  blank ∈ values →
  0 ≤ target_index values c < Z.of_nat (length values)
  ∧ values !! Z.to_nat (target_index values c) = Some (resolve values c).
Proof.
  intros Hb. unfold target_index.
  destruct (decide (indexOf values c = -1)) as [Habs|Hpres].
  - pose proof (indexOf_present _ _ Hb) as Hr. split; [done|].
    destruct (indexOf_found values (JStr blank) _ eq_refl) as (y & Hy & Hl); [lia|].
    rewrite Hl. f_equal. injection Hy as <-.
    unfold resolve. destruct c as [| | | |s]; try done.
    destruct (decide (s ∈ values)) as [Hs|]; [|done].
    by destruct (proj1 (indexOf_absent _ _) Habs s Hs).
  - destruct (indexOf_range values c) as [|Hr]; [done|]. split; [done|].
    destruct (indexOf_found values c _ eq_refl) as (y & -> & Hl); [lia|].
    rewrite Hl. f_equal. unfold resolve.
    destruct (decide (y ∈ values)) as [|Hn]; [done|].
    destruct Hn. by eapply list_elem_of_lookup_2.
Qed.

Lemma resolve_perm (l l' : list jsstring) (c : jsval) :
  l ≡ₚ l' → resolve l c = resolve l' c.
Proof.
  intros Hp. unfold resolve. destruct c as [| | | |s]; try done.
  destruct (decide (s ∈ l)) as [Hs|Hs], (decide (s ∈ l')) as [Hs'|Hs']; try done.
  - destruct Hs'. by rewrite <- Hp.
  - destruct Hs. by rewrite Hp.
Qed.

(** A target at index 0 changes nothing. *)
Lemma change_stays (s : Slot) (c : jsval) (isChar : bool) :
  target_index (order s) c = 0 → change s c isChar = s.
Proof.
  intros Ht. unfold change. rewrite Ht. simpl. rewrite rotate_0. by destruct s.
Qed.


(** A target further on the drum is stepped to and ends displayed at
    index 0. *)
Lemma change_moves (s : Slot) (c : jsval) (isChar : bool) :
  blank ∈ order s → Z.of_nat (length (order s)) < 2 ^ 31 →
  target_index (order s) c ≠ 0 →
  let s' := change s c isChar in
  slot_ok isChar s'
  ∧ className s' = show_class (resolve (order s) c) isChar
  ∧ order s' !! 0%nat = Some (resolve (order s) c)
  ∧ order s' ≡ₚ order s.
Proof.
  intros Hb Hlen Hnz s'.
  destruct (target_index_resolve (order s) c Hb) as (Hr & Ht).
  destruct (change_fields s c isChar) as (_ & Ho & _ & Hc); [lia|].
  fold s' in Ho, Hc.
  assert (Hperm : order s' ≡ₚ order s) by (rewrite Ho; apply rotate_perm; lia).
  assert (H0 : order s' !! 0%nat = Some (resolve (order s) c)).
  { rewrite Ho, rotate_left by lia.
    rewrite lookup_app_l by (rewrite length_drop; lia).
    by rewrite lookup_drop, Nat.add_0_r. }
  assert (Hcls : className s' = show_class (resolve (order s) c) isChar).
  { rewrite Hc, last_step by lia. by rewrite Ht. }
  repeat split; try done.
  - by rewrite Hperm.
  - by rewrite Hperm.
  - unfold displays. destruct (order s') as [|v vs]; [done|].
    simpl in H0. by injection H0 as ->.
Qed.

(** On a slot in working order the rotation settles on the resolved
    character and leaves the slot in working order. *)
Lemma change_settles (s : Slot) (c : jsval) (isChar : bool) :
  slot_ok isChar s →
  let s' := change s c isChar in
  slot_ok isChar s'
  ∧ className s' = show_class (resolve (order s) c) isChar
  ∧ order s' !! 0%nat = Some (resolve (order s) c)
  ∧ order s' ≡ₚ order s
  ∧ divClass s' = divClass s.
Proof.
  intros (Hb & Hlen & Hdisp) s'.
  destruct (decide (target_index (order s) c = 0)) as [Hz|Hnz].
  - unfold s'. rewrite (change_stays _ _ _ Hz).
    destruct (target_index_resolve (order s) c Hb) as (_ & Ht). rewrite Hz in Ht.
    split; [done|]. split; [|done].
    unfold displays in Hdisp. destruct (order s) as [|v vs]; [done|].
    simpl in Ht. by injection Ht as <-.
  - destruct (change_moves s c isChar Hb Hlen Hnz) as (Hok & Hc & H0 & Hp).
    repeat split; try done; try apply Hok.
    destruct (change_fields s c isChar) as (Hd & _); [|done].
    destruct (target_index_resolve (order s) c Hb). lia.
Qed.

End Change.

(* ===================================================================== *)
(** * Loading a group                                                      *)
(* ===================================================================== *)

Section Groups.
Context `{Runtime}.

Lemma pad_spec (n i : nat) (characters : list jsval) :
  Forall (λ v, v ≠ JUndefined) characters →
  (i ≤ length characters)%nat →
  pad n i characters
  = characters ++ replicate (i + n - length characters) (JStr blank).
Proof.
  revert i characters. induction n as [|n IH]; intros i characters Hdef Hi.
  - simpl. replace (i + 0 - length characters)%nat with 0%nat by lia.
    by rewrite app_nil_r.
  - cbn [pad]. destruct (characters !! i) as [v|] eqn:Hv.
    + assert (v ≠ JUndefined) as Hne.
      { eapply (proj1 (Forall_forall _ _) Hdef). by eapply list_elem_of_lookup_2. }
      apply lookup_lt_Some in Hv.
      replace (is_undefined (Some v)) with false by (by destruct v).
      rewrite IH by (done || lia). do 2 f_equal. lia.
    + apply lookup_ge_None_1 in Hv. simpl.
      unfold array_set. destruct (decide (i < length characters)%nat); [lia|].
      replace (i - length characters)%nat with 0%nat by lia. simpl.
      rewrite IH.
      * rewrite <- app_assoc, length_app. simpl. f_equal.
        replace (i + S n - length characters)%nat
          with (S (S (i + n) - (length characters + 1)))%nat by lia.
        done.
      * apply Forall_app. split; [done|]. by repeat constructor.
      * rewrite length_app. simpl. lia.
Qed.

Lemma split_chars_defined (s : jsstring) :
  Forall (λ v, v ≠ JUndefined) (split_chars s).
Proof. unfold split_chars. apply Forall_fmap, Forall_true. done. Qed.

Lemma group_characters_spec (input : jsstring) (strLen : nat) :
  group_characters input strLen
  = take strLen (split_chars (toUpperCase input)
                 ++ replicate (strLen - length (toUpperCase input)) (JStr blank)).
Proof.
  unfold group_characters.
  rewrite pad_spec by (apply split_chars_defined || lia).
  unfold split_chars at 2 3. rewrite length_fmap. simpl.
  apply slice_prefix. rewrite length_app, length_replicate.
  unfold split_chars. rewrite length_fmap. lia.
Qed.

Lemma length_group_characters (input : jsstring) (strLen : nat) :
  length (group_characters input strLen) = strLen.
Proof.
  rewrite group_characters_spec, length_take, length_app, length_replicate.
  unfold split_chars. rewrite length_fmap. lia.
Qed.

Lemma group_characters_lookup (input : jsstring) (strLen i : nat) :
  (i < strLen)%nat →
  group_characters input strLen !! i = Some (target_char input i).
Proof.
  intros Hi. rewrite group_characters_spec, lookup_take_lt by done.
  unfold target_char, split_chars.
  destruct (toUpperCase input !! i) as [u|] eqn:Hu.
  - rewrite lookup_app_l by (rewrite length_fmap; by eapply lookup_lt_Some).
    by rewrite list_lookup_fmap, Hu.
  - apply lookup_ge_None_1 in Hu.
    rewrite lookup_app_r by (rewrite length_fmap; lia).
    rewrite length_fmap. apply lookup_replicate_2. lia.
Qed.

Lemma assign_lookup (characters : list jsval) (n i : nat) (elements : list Slot)
    (j : nat) :
  assign characters n i elements !! j
  = if decide (i ≤ j < i + n)%nat then
      match characters !! j with
      | Some c => (λ span, change span c true) <$> elements !! j
      | None => elements !! j
      end
    else elements !! j.
Proof.
  revert i elements. induction n as [|n IH]; intros i elements.
  - simpl. destruct (decide _); [lia|done].
  - cbn [assign]. rewrite IH.
    destruct (decide (S i ≤ j < S i + n)%nat), (decide (i ≤ j < i + S n)%nat);
      try lia.
    + destruct (characters !! i), (characters !! j); try done;
        by rewrite list_lookup_alter_ne by lia.
    + assert (j = i) as -> by lia.
      destruct (characters !! i); [|done]. by rewrite list_lookup_alter_eq.
    + destruct (characters !! i); [|done]. by rewrite list_lookup_alter_ne by lia.
Qed.

(** A text group sends element [i] to [target_char input i]. *)
Lemma loadGroup_text (input : jsstring) (g : Group) (elements : list Slot) :
  body g = Text elements →
  body (loadGroup input g)
  = Text (imap (λ i span, change span (target_char input i) true) elements).
Proof.
  intros Hb. unfold loadGroup. rewrite Hb. simpl. f_equal.
  apply list_eq. intros j.
  rewrite assign_lookup, length_group_characters, list_lookup_imap.
  destruct (decide (0 ≤ j < 0 + length elements)%nat) as [Hj|Hj].
  - by rewrite group_characters_lookup by lia.
  - rewrite (lookup_ge_None_2 elements j) by lia. done.
Qed.

Lemma loadGroup_image (input : jsstring) (g : Group) (span : Slot) :
  body g = Image span →
  body (loadGroup input g) = Image (change span (JStr input) false).
Proof. intros Hb. unfold loadGroup. by rewrite Hb. Qed.

Lemma loadGroup_classes (input : jsstring) (g : Group) :
  classes (loadGroup input g) = classes g.
Proof. done. Qed.

Lemma loadGroup_contents (input : jsstring) (g : Group) :
  contents (loadGroup input g) = contents g.
Proof. done. Qed.

Lemma loadGroup_body_irrel (input : jsstring) (g g' : Group) :
  body g = body g' → body (loadGroup input g) = body (loadGroup input g').
Proof. intros Hb. unfold loadGroup. by rewrite Hb. Qed.


Lemma target_char_blank (i : nat) :
  target_char blank i = JStr blank.
Proof.
  unfold target_char. rewrite toUpperCase_blank.
  destruct i as [|i]; [done|]. by destruct i.
Qed.

Lemma resolve_blank (values : list jsstring) :
  blank ∈ values → resolve values (JStr blank) = blank.
Proof. intros Hb. unfold resolve. by destruct (decide _). Qed.

End Groups.

(** Reduce a property of all the elements of a loaded character group to
    a property of element [i], rotated, given that all elements satisfy
    [Hok] beforehand. *)
Ltac each_element elements Hok i span Hi Hspan :=
  apply Forall_lookup; intros i ?; rewrite list_lookup_imap;
  destruct (elements !! i) as [span|] eqn:Hi; [|done]; simpl; intros [= <-];
  pose proof (proj1 (Forall_lookup _ _) Hok i span Hi) as Hspan.

(* ===================================================================== *)
(** * Properties of the drums and of the rotation                          *)
(* ===================================================================== *)

(** C1.  On a slot whose drum has the displayed character at index 0,
    [change] towards a character found at index [target] queues exactly
    [target] steps, the [k]-th of them showing the character at index
    [k + 1], and settles on the target character; with [target = 0]
    nothing is queued.  An unknown character on a slot already showing the
    blank queues nothing either. *)
Theorem change_performs_target_steps (s : Slot) (c : jsval) (isChar : bool) :
  displays isChar s →
  (∀ target : Z,
     indexOf (order s) c = target → 0 ≤ target →
     let s' := change s c isChar in
     fx s' = fx s ++ ((λ v, show_class v isChar)
                        <$> take (Z.to_nat target) (drop 1 (order s)))
     ∧ Z.of_nat (length (fx s')) = Z.of_nat (length (fx s)) + target
     ∧ (∀ k, (k < Z.to_nat target)%nat →
          fx s' !! (length (fx s) + k)%nat
          = (λ v, show_class v isChar) <$> order s !! S k)
     ∧ (∃ c', c = JStr c' ∧ order s !! Z.to_nat target = Some c'
              ∧ className s' = show_class c' isChar)
     ∧ (target = 0 → fx s' = fx s ∧ className s' = className s))
  ∧ (indexOf (order s) c = -1 → indexOf (order s) (JStr blank) = 0 →
     fx (change s c isChar) = fx s
     ∧ className (change s c isChar) = className s
     ∧ className s = csp).
Proof.
  intros Hdisp. split.
  - intros target Hidx Hpos s'.
    assert (Ht : target_index (order s) c = target).
    { unfold target_index. rewrite Hidx. destruct (decide (target = -1)); [lia|done]. }
    destruct (change_fields s c isChar) as (_ & _ & Hf & Hc); [lia|].
    fold s' in Hf, Hc. rewrite Ht in Hf, Hc.
    destruct (indexOf_range (order s) c) as [|Hr]; [lia|]. rewrite Hidx in Hr.
    destruct (indexOf_found _ _ _ Hidx Hpos) as (c' & -> & Hc').
    assert (Hlen : length (take (Z.to_nat target) (drop 1 (order s))) = Z.to_nat target).
    { rewrite length_take_le; [done|]. rewrite length_drop. lia. }
    split; [done|]. split; [|split; [|split]].
    + rewrite Hf, length_app, length_fmap, Hlen. lia.
    + intros k Hk. rewrite Hf, lookup_app_r by lia.
      replace (length (fx s) + k - length (fx s))%nat with k by lia.
      rewrite list_lookup_fmap, lookup_take_lt by done. by rewrite lookup_drop.
    + exists c'. split; [done|]. split; [done|]. rewrite Hc.
      destruct (decide (target = 0)) as [->|Hnz].
      * simpl. unfold displays in Hdisp. destruct (order s) as [|v vs]; [done|].
        simpl in Hc'. by injection Hc' as <-.
      * rewrite last_step by lia. by rewrite Hc'.
    + intros ->. rewrite Hf, Hc. simpl. by rewrite app_nil_r.
  - intros Habs Hblank.
    assert (Ht : target_index (order s) c = 0).
    { unfold target_index. rewrite Habs. by destruct (decide (-1 = -1)). }
    destruct (change_fields s c isChar) as (_ & _ & Hf & Hc); [lia|].
    rewrite Ht in Hf, Hc. simpl in Hf, Hc. rewrite app_nil_r in Hf.
    split; [done|]. split; [done|].
    destruct (indexOf_found _ _ _ Hblank) as (y & Hy & Hl); [lia|].
    injection Hy as <-. unfold displays in Hdisp.
    destruct (order s) as [|v vs]; [done|]. simpl in Hl. by injection Hl as ->.
Qed.

(** C7, as the code has it.  The full, character and numeric drums hold the
    blank exactly once, at index 0, where a fresh slot starts and where an
    unknown character is sent; the image drum is empty and offers no
    fallback. *)
Theorem drums_blank_token (k : DrumKind) :
  match k with
  | ImageKind =>
      drum k = [] ∧ ∀ c, target_index (drum k) c = -1
  | _ =>
      exactly_one_blank (drum k)
      ∧ drum k !! 0%nat = Some blank
      ∧ ∀ c, indexOf (drum k) c = -1 → target_index (drum k) c = 0
  end.
Proof.
  destruct k; (split; [reflexivity|]); try (split; [reflexivity|]);
    intros c; unfold target_index; try (by intros ->).
  reflexivity.
Qed.

(** C7, as stated, fails on the image drum: it holds no blank. *)
Lemma image_drum_has_no_blank : ¬ exactly_one_blank (drum ImageKind).
Proof. unfold exactly_one_blank. simpl. lia. Qed.

(** C6, as the code has it.  On a slot in working order an unknown
    character ends on the blank class, and a character group loaded with
    characters its drums lack ends all blank; a slot with the empty drum is
    left as it is, whatever the character. *)
Theorem unknown_character_falls_back_to_blank `{Runtime} :
  (∀ (s : Slot) (c : jsval) (isChar : bool),
     slot_ok isChar s → indexOf (order s) c = -1 →
     className (change s c isChar) = csp
     ∧ order (change s c isChar) !! 0%nat = Some blank
     ∧ slot_ok isChar (change s c isChar))
  ∧ (∀ (s : Slot) (c : jsval) (isChar : bool),
       order s = [] → change s c isChar = s)
  ∧ (∀ (g : Group) (elements : list Slot) (input : jsstring),
       body g = Text elements →
       Forall (slot_ok true) elements →
       (∀ i span u, elements !! i = Some span → toUpperCase input !! i = Some u →
                    [u] ∉ order span) →
       ∃ elements',
         body (loadGroup input g) = Text elements'
         ∧ length elements' = length elements
         ∧ Forall (λ span, className span = csp ∧ slot_ok true span) elements')
  ∧ (∀ (g : Group) (span : Slot) (input : jsstring),
       body g = Image span →
       (slot_ok false span → input ∉ order span →
        ∃ span', body (loadGroup input g) = Image span' ∧ className span' = csp)
       ∧ (order span = [] → body (loadGroup input g) = Image span)).
Proof.
  assert (Hslot : ∀ (s : Slot) (c : jsval) (isChar : bool),
     slot_ok isChar s → indexOf (order s) c = -1 →
     className (change s c isChar) = csp
     ∧ order (change s c isChar) !! 0%nat = Some blank
     ∧ slot_ok isChar (change s c isChar)).
  { intros s c isChar Hok Habs.
    destruct (change_settles s c isChar Hok) as (Hok' & Hc & H0 & _ & _).
    assert (Hres : resolve (order s) c = blank).
    { unfold resolve. destruct c as [| | | |x]; try done.
      destruct (decide (x ∈ order s)) as [Hx|]; [|done].
      by destruct (proj1 (indexOf_absent _ _) Habs x Hx). }
    rewrite Hres in Hc, H0. split; [|done]. rewrite Hc. by destruct isChar. }
  split; [done|]. split; [apply change_empty|]. split; cycle 1.
  { intros g span input Hb. rewrite (loadGroup_image _ _ _ Hb). split.
    - intros Hok Hunk. eexists. split; [done|].
      apply Hslot; [done|]. apply indexOf_absent. by intros y Hy [= ->].
    - intros Hnil. by rewrite change_empty. }
  intros g elements input Hb Hok Hunk.
  eexists. split; [by apply loadGroup_text|]. split; [by rewrite length_imap|].
  each_element elements Hok i span Hi Hspan.
  destruct (change_settles span (target_char input i) true Hspan)
    as (Hok' & Hc & _).
  split; [|done]. rewrite Hc.
  replace (resolve (order span) (target_char input i)) with blank; [done|].
  unfold target_char. destruct (toUpperCase input !! i) as [u|] eqn:Hu.
  - unfold resolve. destruct (decide ([u] ∈ order span)) as [Hin|]; [|done].
    by destruct (Hunk i span u Hi Hu).
  - symmetry. apply resolve_blank. apply Hspan.
Qed.

(** C6, as stated, fails on an image group: its drum is empty, an unknown
    token finds no blank to fall back to, and the element keeps the class
    it had instead of taking the blank class. *)
Lemma unknown_image_token_not_blank :
  indexOf (order Samples.image_slot) (JStr (lit "X")) = -1
  ∧ group_slots (loadGroup (H := Samples.ascii_runtime) (lit "X") Samples.image_group)
    = [Samples.image_slot]
  ∧ className Samples.image_slot ≠ csp.
Proof. repeat split. discriminate. Qed.

(** C5.  A character group of [W] elements loaded with [input] targets
    exactly [W] characters: the units of the uppercased input, cut after
    the first [W], followed by blanks when there are fewer than [W]; element
    [i] is sent to the [i]-th of them. *)
Theorem loadGroup_pads_and_truncates `{Runtime} (input : jsstring) (W : nat) :
  let upper := toUpperCase input in
  length (group_characters input W) = W
  ∧ group_characters input W
    = take W (split_chars upper ++ replicate (W - length upper) (JStr blank))
  ∧ (∀ i, (i < W)%nat →
       group_characters input W !! i
       = Some (match upper !! i with Some u => JStr [u] | None => JStr blank end))
  ∧ (∀ (g : Group) (elements : list Slot),
       body g = Text elements → length elements = W →
       body (loadGroup input g)
       = Text (zip_with (λ span c, change span c true) elements
                 (group_characters input W)))
  ∧ group_characters (H := Samples.ascii_runtime) (lit "B") 5
    = JStr <$> [lit "B"; lit " "; lit " "; lit " "; lit " "]
  ∧ group_characters (H := Samples.ascii_runtime) (lit "HELLO") 3
    = JStr <$> [lit "H"; lit "E"; lit "L"].
Proof.
  intros upper. split; [apply length_group_characters|].
  split; [apply group_characters_spec|].
  split; [intros i Hi; by apply group_characters_lookup|].
  split; [|by split].
  intros g elements Hb <-. rewrite (loadGroup_text _ _ _ Hb). f_equal.
  apply list_eq. intros j. rewrite list_lookup_imap, lookup_zip_with.
  destruct (elements !! j) as [span|] eqn:Hj; [|done]. simpl.
  apply lookup_lt_Some in Hj. by rewrite group_characters_lookup.
Qed.

(* ===================================================================== *)
(** * Loading and clearing a row                                           *)
(* ===================================================================== *)

Section Rows.
Context `{Runtime}.


(** Loading a group with the single blank leaves it all blank. *)
Lemma loadGroup_blank_blank (g : Group) :
  group_ok g → group_blank (loadGroup blank g).
Proof.
  unfold group_ok, group_blank. destruct (body g) as [divs|span|elements] eqn:Hb.
  - unfold loadGroup. by rewrite Hb.
  - rewrite (loadGroup_image _ _ _ Hb). intros [Hnil|Hok].
    + left. by rewrite change_empty.
    + right. destruct (change_settles span (JStr blank) false Hok) as (_ & -> & _).
      rewrite resolve_blank by apply Hok. done.
  - rewrite (loadGroup_text _ _ _ Hb). intros Hok.
    each_element elements Hok i span Hi Hspan.
    destruct (change_settles span (target_char blank i) true Hspan) as (_ & -> & _).
    rewrite target_char_blank, resolve_blank by apply Hspan. done.
Qed.





Lemma slot_ok_ready (s : Slot) (isChar : bool) : slot_ok isChar s → slot_ready isChar s.
Proof. intros (? & ? & ?). right. repeat split; try done. by left. Qed.

Lemma row_ok_ready (row : Row) : row_ok row → row_ready row.
Proof.
  unfold row_ok, row_ready. intros Hrow. eapply Forall_impl; [done|]. intros g.
  unfold group_ok, group_ready. destruct (body g) as [divs|span|elements]; [done| |].
  - intros [Hnil|Hok]; [by left|by apply slot_ok_ready].
  - intros Hok. eapply Forall_impl; [done|]. intros s. apply slot_ok_ready.
Qed.




Lemma load_field_body (data : DataItem) (g : Group) :
  body (load_field data g) = body (loadGroup (toString (datum data g)) g).
Proof. done. Qed.

Lemma load_field_contents (data : DataItem) (g : Group) :
  contents (load_field data g) = datum data g.
Proof. done. Qed.

Lemma datum_classes (data : DataItem) (g g' : Group) :
  classes g = classes g' → datum data g = datum data g'.
Proof. unfold datum, field. by intros ->. Qed.









Lemma clearRow_blank (row : Row) : row_ok row → row_blank (clearRow row).
Proof.
  unfold row_ok, row_blank, clearRow. intros Hok. apply Forall_fmap.
  eapply Forall_impl; [done|]. intros g. apply loadGroup_blank_blank.
Qed.



End Rows.






(* ===================================================================== *)
(** * The sequencer                                                        *)
(* ===================================================================== *)

Section Sequencer.
Context `{Runtime}.

(** From callback [i] on: the rows from [i] are acted on once each, in
    order; on a board without rows the one callback acts on the missing
    row 0. *)
Lemma loop_spec (fuel : nat) (input : list DataItem) (i : nat) (rows : Board)
    (log : list RowAction) :
  let m := max 1 (length rows) in
  (i < m)%nat → (m - i ≤ fuel)%nat →
  loop fuel input i rows log
  = Some (imap (λ j row, if decide (i ≤ j)%nat then act_row input j row else row) rows,
          log ++ (row_action input <$> seq i (m - i)) ++ [BoardRendered]).
Proof.
  intros m. revert i rows log m.
  induction fuel as [|fuel IH]; intros i rows log m Hi Hfuel; [lia|].
  cbn [loop].
  replace (match input !! i with
           | Some data => (alter (loadRow data) i rows, log ++ [LoadRow i data])
           | None => (alter clearRow i rows, log ++ [ClearRow i])
           end)
    with (alter (act_row input i) i rows, log ++ [row_action input i])
    by (unfold act_row, row_action; by destruct (input !! i)).
  rewrite length_alter.
  assert (Hrows :
    imap (λ j row, if decide (S i ≤ j)%nat then act_row input j row else row)
         (alter (act_row input i) i rows)
    = imap (λ j row, if decide (i ≤ j)%nat then act_row input j row else row) rows).
  { apply list_eq. intros j. rewrite !list_lookup_imap.
    destruct (decide (i = j)) as [<-|Hne].
    - rewrite list_lookup_alter_eq. destruct (rows !! i); [|done]. simpl.
      destruct (decide (S i ≤ i)%nat); [lia|].
      by destruct (decide (i ≤ i)%nat); [|lia].
    - rewrite list_lookup_alter_ne by done. destruct (rows !! j); [|done]. simpl.
      destruct (decide (S i ≤ j)%nat), (decide (i ≤ j)%nat); (done || lia). }
  destruct (decide (S i < length rows)%nat) as [Hlt|Hge].
  - rewrite IH by (rewrite ?length_alter; lia).
    rewrite Hrows, length_alter. fold m. f_equal. f_equal.
    rewrite <- app_assoc. f_equal.
    replace (m - i)%nat with (S (m - S i)) by lia. done.
  - replace (m - i)%nat with 1%nat by lia. simpl.
    rewrite <- app_assoc. f_equal. f_equal.
    rewrite <- Hrows. apply list_eq. intros j. rewrite list_lookup_imap.
    destruct (alter _ i rows !! j) as [row|] eqn:Hj; [|done]. simpl.
    apply lookup_lt_Some in Hj. rewrite length_alter in Hj.
    by destruct (decide (S i ≤ j)%nat); [lia|].
Qed.

Lemma loadSequentially_spec (fuel : nat) (input : list DataItem) (rows : Board) :
  (1 ≤ fuel)%nat → (length rows ≤ fuel)%nat →
  loadSequentially fuel input rows
  = Some (pass input rows,
          (row_action input <$> seq 0 (max 1 (length rows))) ++ [BoardRendered]).
Proof.
  intros H1 Hn. unfold loadSequentially. rewrite loop_spec by lia.
  rewrite Nat.sub_0_r. f_equal.
Qed.

Lemma length_pass (input : list DataItem) (rows : Board) :
  length (pass input rows) = length rows.
Proof. unfold pass. apply length_imap. Qed.

Lemma action_indices (input : list DataItem) (l : list nat) :
  omap action_index ((row_action input <$> l) ++ [BoardRendered]) = l.
Proof.
  induction l as [|i l IH]; [done|].
  rewrite fmap_cons, <- app_comm_cons.
  change (omap action_index (row_action input i :: ?l))
    with (match action_index (row_action input i) with
          | Some k => k :: omap action_index l
          | None => omap action_index l
          end).
  rewrite IH. unfold row_action. by destruct (input !! i).
Qed.

End Sequencer.

(* ===================================================================== *)
(** * The pager                                                            *)
(* ===================================================================== *)

Section Paging.
Context `{Runtime}.

Lemma show_page_spec (ticks : nat) (results : list DataItem) (numRows i : Z)
    (board : Board) (events : list PagerEvent) :
  (1 ≤ ticks)%nat → (length board ≤ ticks)%nat →
  show_page ticks results numRows i (board, events)
  = Some (pass (slice results i (i + numRows)) board,
          events ++ [ShowPage (slice results i (i + numRows))]).
Proof.
  intros H1 Hn. unfold show_page. simpl.
  by rewrite loadSequentially_spec by done.
Qed.

Lemma page_slice_at (results : list DataItem) (numRows : Z) (p : nat) :
  slice results (Z.of_nat p * numRows) (Z.of_nat p * numRows + numRows)
  = page_slice results numRows p.
Proof. unfold page_slice. f_equal. lia. Qed.

Lemma paginate_spec (fuel ticks : nat) (results : list DataItem) (numRows P : Z)
    (p : nat) (board : Board) (events : list PagerEvent) :
  let k := max 1 (Z.to_nat (P - Z.of_nat p)) in
  (1 ≤ ticks)%nat → (length board ≤ ticks)%nat → (k ≤ fuel)%nat →
  paginate fuel ticks results numRows (Fin P) (Z.of_nat p * numRows) (Z.of_nat p)
    (board, events)
  = Some (run_pages results numRows board (seq p k),
          events ++ cycle_events results numRows (seq p k)).
Proof.
  intros k. revert p board events k.
  induction fuel as [|fuel IH]; intros p board events k H1 Hn Hk; [lia|].
  cbn [paginate]. rewrite show_page_spec by done. simpl.
  rewrite page_slice_at.
  replace (Z.of_nat p * numRows + numRows) with (Z.of_nat (S p) * numRows) by lia.
  replace (Z.of_nat p + 1) with (Z.of_nat (S p)) by lia.
  destruct (Z.ltb_spec (Z.of_nat (S p)) P) as [Hlt|Hge].
  - rewrite IH by (rewrite ?length_pass; lia).
    replace k with (S (max 1 (Z.to_nat (P - Z.of_nat (S p))))) by lia.
    simpl. unfold cycle_events. simpl. by rewrite <- !app_assoc.
  - replace k with 1%nat by lia. simpl. unfold cycle_events. simpl.
    by rewrite <- app_assoc.
Qed.

Lemma ceil_div_pos (a b : Z) :
  0 < b → ∃ P, ceil_div a b = Fin P ∧ (P - 1) * b < a ≤ P * b.
Proof.
  intros Hb. unfold ceil_div.
  destruct (Z.eqb_spec b 0) as [|_]; [lia|].
  eexists. split; [done|].
  pose proof (Z.mul_div_le (- a) b Hb).
  pose proof (Z.mul_succ_div_gt (- a) b Hb). nia.
Qed.

Lemma numResults_min (options : Options) (results : list DataItem) :
  numResults options results
  = Z.min (Z.of_nat (length results)) (effective_maxResults options).
Proof.
  unfold numResults.
  destruct (Z.leb_spec (Z.of_nat (length results)) (effective_maxResults options));
    lia.
Qed.

(** One cycle of the pager: page 0, then the pages up to [numPages]. *)
Lemma update_spec (fuel : nat) (options : Options) (results : list DataItem)
    (board : Board) (P : Z) :
  numPages options results = Fin P →
  (1 ≤ fuel)%nat → (length board ≤ fuel)%nat → (Z.to_nat P ≤ fuel)%nat →
  update fuel options results board
  = Some (run_pages results (numRows options) board (seq 0 (max 1 (Z.to_nat P))),
          cycle_events results (numRows options) (seq 0 (max 1 (Z.to_nat P)))).
Proof.
  intros HP H1 Hn Hfuel. unfold update. rewrite HP.
  rewrite show_page_spec by done. simpl.
  change (slice results 0 (0 + numRows options))
    with (slice results (Z.of_nat 0 * numRows options)
            (Z.of_nat 0 * numRows options + numRows options)).
  rewrite page_slice_at.
  destruct (Z.ltb_spec (0 + 1) P) as [Hlt|Hge].
  - replace (0 + numRows options) with (Z.of_nat 1 * numRows options) by lia.
    change (0 + 1) with (Z.of_nat 1).
    rewrite (paginate_spec fuel fuel results (numRows options) P 1)
      by (rewrite ?length_pass; lia).
    replace (max 1 (Z.to_nat P)) with (S (max 1 (Z.to_nat (P - Z.of_nat 1)))) by lia.
    done.
  - replace (max 1 (Z.to_nat P)) with 1%nat by lia. done.
Qed.

End Paging.


(** C2, at an input the code mishandles.  Five records, [numRows = 2],
    [maxResults = 3]: [numResults] is 3 and the cycle has two pages, but
    the second page is the slice [[2, 4)] of the whole list, so the record
    at index 3 is loaded and four records are shown in all. *)
Lemma update_shows_record_past_maxResults :
  numResults Samples.capped_options Samples.five_results = 3
  ∧ Samples.five_results !! 3%nat = Some Samples.r3
  ∧ match update (H := Samples.ascii_runtime) 5 Samples.capped_options
            Samples.five_results (Samples.board 2) with
    | Some (board', events) =>
        events = [ShowPage [Samples.r0; Samples.r1];
                  ShowPage [Samples.r2; Samples.r3]; Refresh]
        ∧ row_contents <$> board'
          = row_contents
              <$> [loadRow (H := Samples.ascii_runtime) Samples.r2 (initRow Samples.template);
                   loadRow (H := Samples.ascii_runtime) Samples.r3 (initRow Samples.template)]
    | None => False
    end.
Proof. vm_compute. repeat split. Qed.

(* ===================================================================== *)
(** * The list served by the backend                                       *)
(* ===================================================================== *)

Section Arrivals.

Lemma sort_key_value (a : Arrival) : sort_key a = value_key (arrival_time a).
Proof. done. Qed.

Lemma compare_after (a b : Arrival) :
  num_ltb (Fin 0) (compare a b) = true → by_key b a.
Proof.
  unfold compare, by_key, sort_key.
  destruct (arrival_time a), (arrival_time b); simpl; try done;
    intros Hlt; apply Z.ltb_lt in Hlt; lia.
Qed.

Lemma compare_not_after (a b : Arrival) :
  num_ltb (Fin 0) (compare a b) = false → by_key a b.
Proof.
  unfold compare, by_key, sort_key.
  destruct (arrival_time a), (arrival_time b); simpl; try done;
    intros Hlt; apply Z.ltb_ge in Hlt; lia.
Qed.

#[local] Instance by_key_trans : Transitive by_key.
Proof.
  intros a b c. unfold by_key.
  destruct (sort_key a), (sort_key b), (sort_key c); simpl; try done. lia.
Qed.

Lemma elem_of_sort_insert (x y : Arrival) (l : list Arrival) :
  y ∈ sort_insert compare x l ↔ y = x ∨ y ∈ l.
Proof.
  induction l as [|z l IH]; cbn [sort_insert].
  - rewrite list_elem_of_singleton, elem_of_nil. tauto.
  - destruct (num_ltb (Fin 0) (compare x z)).
    + rewrite !elem_of_cons, IH. tauto.
    + rewrite !elem_of_cons. tauto.
Qed.

Lemma sort_insert_sorted (x : Arrival) (l : list Arrival) :
  StronglySorted by_key l → StronglySorted by_key (sort_insert compare x l).
Proof.
  induction l as [|y l IH]; cbn [sort_insert]; intros Hs.
  - repeat constructor.
  - apply StronglySorted_cons in Hs as [Hy Hl].
    destruct (num_ltb (Fin 0) (compare x y)) eqn:Hc.
    + apply StronglySorted_cons. split; [|by apply IH].
      apply Forall_forall. intros z Hz.
      apply elem_of_sort_insert in Hz as [->|Hz].
      * by apply compare_after.
      * by eapply (proj1 (Forall_forall _ _) Hy).
    + apply compare_not_after in Hc.
      apply StronglySorted_cons. split.
      * constructor; [done|]. eapply Forall_impl; [done|].
        intros z Hz. by etrans.
      * by apply StronglySorted_cons.
Qed.

Lemma sort_sorted (l : list Arrival) : StronglySorted by_key (sort compare l).
Proof.
  unfold sort. induction l as [|x l IH]; cbn [foldr]; [constructor|].
  by apply sort_insert_sorted.
Qed.

Lemma elem_of_sort (y : Arrival) (l : list Arrival) : y ∈ sort compare l ↔ y ∈ l.
Proof.
  unfold sort. induction l as [|x l IH]; cbn [foldr]; [done|].
  by rewrite elem_of_sort_insert, IH, elem_of_cons.
Qed.

Lemma get_stop_times_valid (feed : Feed) :
  Forall (λ a, valid_scheduled (arrival_time a)) (get_stop_times feed).
Proof.
  apply Forall_forall. intros a Ha. unfold get_stop_times in Ha.
  apply list_elem_of_omap in Ha as (st & _ & Hst).
  destruct (departure_time st) as [ts|]; [|done].
  destruct (Z.ltb_spec 0 (minutes_to_leave (now_ms feed) ts)) as [Hpos|_].
  - injection Hst as <-. right. by eexists.
  - destruct (Z.eqb_spec (minutes_to_leave (now_ms feed) ts) 0); [|done].
    injection Hst as <-. by left.
Qed.

Lemma fetchAndWrite_valid (feeds : list Feed) (status : gmap (list N) jsstring) :
  Forall (λ a, valid_scheduled (arrival_time a)) (fetchAndWrite feeds status).
Proof.
  apply Forall_forall. intros a Ha. unfold fetchAndWrite in Ha.
  rewrite elem_of_sort in Ha. apply list_elem_of_fmap in Ha as (b & -> & Hb). simpl.
  apply list_elem_of_bind in Hb as (feed & Hb & _).
  by eapply (proj1 (Forall_forall _ _) (get_stop_times_valid feed)).
Qed.

Lemma fetchAndWrite_sorted (feeds : list Feed) (status : gmap (list N) jsstring) :
  StronglySorted by_key (fetchAndWrite feeds status).
Proof. apply sort_sorted. Qed.

Lemma scheduled_arrival_item (entry : Arrival) :
  scheduled (arrival_item entry) = arrival_time entry.
Proof. reflexivity. Qed.

Lemma scheduled_arrivals (jsonData : list Arrival) :
  scheduled <$> arrivals jsonData
  = arrival_time <$> take (Z.to_nat (Z.min 45 (Z.of_nat (length jsonData)))) jsonData.
Proof.
  unfold arrivals. rewrite <- list_fmap_compose. apply list_fmap_ext.
  intros _ entry _. apply scheduled_arrival_item.
Qed.

Lemma StronglySorted_lookup {A} (R : relation A) (l : list A) (i j : nat) (x y : A) :
  StronglySorted R l → (i < j)%nat → l !! i = Some x → l !! j = Some y → R x y.
Proof.
  intros Hs. revert i j. induction Hs as [|z l Hs IH Hz]; intros i j Hij Hi Hj; [done|].
  destruct j as [|j]; [lia|]. simpl in Hj. destruct i as [|i]; simpl in Hi.
  - injection Hi as ->. eapply (proj1 (Forall_forall _ _) Hz).
    by eapply list_elem_of_lookup_2.
  - eapply (IH i j); (done || lia).
Qed.

End Arrivals.

(** X25.  The [scheduled] values of the served list are positive numbers
    of minutes or the zero marker ['0']; the list is in the order of the
    comparator's key, which is the number itself and [+Infinity] for the
    zero marker: the numbers come first, in ascending order, and every
    entry after a zero marker is a zero marker.  At most 45 records are
    served. *)
Theorem arrivals_sorted_by_key (feeds : list Feed) (status : gmap (list N) jsstring) :
  let served := scheduled <$> arrivals (fetchAndWrite feeds status) in
  Forall valid_scheduled served
  ∧ StronglySorted (λ v w, key_le (value_key v) (value_key w)) served
  ∧ (∀ i j m n, (i < j)%nat → served !! i = Some (JNum m) → served !! j = Some (JNum n) →
       m ≤ n)
  ∧ (∀ i j v, (i < j)%nat → served !! i = Some zero_marker → served !! j = Some v →
       v = zero_marker)
  ∧ (length served ≤ 45)%nat.
Proof.
  intros served.
  assert (Hvalid : Forall valid_scheduled served).
  { unfold served. rewrite scheduled_arrivals. apply Forall_fmap, Forall_take.
    apply fetchAndWrite_valid. }
  assert (Hsorted : StronglySorted (λ v w, key_le (value_key v) (value_key w)) served).
  { unfold served. rewrite scheduled_arrivals.
    apply StronglySorted_fmap with (R1 := by_key); [by intros a b|].
    eapply StronglySorted_app_1_l. rewrite take_drop. apply fetchAndWrite_sorted. }
  split; [done|]. split; [done|]. split; [|split].
  - intros i j m n Hij Hi Hj.
    by apply (StronglySorted_lookup _ _ _ _ _ _ Hsorted Hij Hi Hj).
  - intros i j v Hij Hi Hj.
    pose proof (StronglySorted_lookup _ _ _ _ _ _ Hsorted Hij Hi Hj) as Hle.
    pose proof (proj1 (Forall_lookup _ _) Hvalid j v Hj) as [->|(n & _ & ->)]; [done|].
    done.
  - unfold served, arrivals. rewrite !length_fmap, length_take. lia.
Qed.

(** C9, at an input the code mishandles.  One station with a train due in
    30 seconds and one due in 5 minutes: the train due now is served
    after the other, so the minutes do not ascend.  With 46 arrivals, of
    which one is due now, the 45 records served are the 45 later trains:
    the train due now is not served at all. *)
Lemma arrivals_not_ascending :
  scheduled <$> arrivals (fetchAndWrite [Samples.feed] ∅) = [JNum 5; zero_marker]
  ∧ ¬ ascending_scheduled (arrivals (fetchAndWrite [Samples.feed] ∅))
  ∧ length (get_stop_times Samples.crowded_feed) = 46%nat
  ∧ arrival_time <$> take 1 (get_stop_times Samples.crowded_feed) = [zero_marker]
  ∧ scheduled <$> arrivals (fetchAndWrite [Samples.crowded_feed] ∅)
    = (λ k : nat, JNum (Z.of_nat k)) <$> seq 1 45.
Proof.
  split; [by vm_compute|]. split.
  - unfold ascending_scheduled.
    replace ((λ item, scheduled_minutes (scheduled item))
               <$> arrivals (fetchAndWrite [Samples.feed] ∅))
      with [5; 0] by (by vm_compute).
    intros Hs. apply Sorted_inv in Hs as [_ Hhd]. apply HdRel_inv in Hhd. lia.
  - split; [by vm_compute|]. split; by vm_compute.
Qed.

(* ===================================================================== *)
(** * The theorems at work on the sample board                             *)
(* ===================================================================== *)

(** C1 on a numeric slot showing the blank, sent to ['5'] at index 6. *)
Lemma change_performs_target_steps_witness :
  displays true Samples.numeric_slot
  ∧ indexOf (order Samples.numeric_slot) (JStr (lit "5")) = 6
  ∧ Z.of_nat (length (fx (change Samples.numeric_slot (JStr (lit "5")) true))) = 0 + 6
  ∧ className (change Samples.numeric_slot (JStr (lit "5")) true) = lit "c5".
Proof.
  split; [reflexivity|]. split; [reflexivity|].
  destruct (proj1 (change_performs_target_steps
                     Samples.numeric_slot (JStr (lit "5")) true eq_refl)
              6 eq_refl ltac:(lia)) as (_ & Hlen & _ & (c' & Hc' & _ & Hcls) & _).
  split; [exact Hlen|]. injection Hc' as <-. exact Hcls.
Defined.



(** C6 on a numeric slot that shows ['5'], sent to a letter its drum
    lacks: seven steps take it to the blank. *)
Lemma unknown_character_falls_back_to_blank_witness :
  slot_ok true Samples.showing_five
  ∧ className Samples.showing_five = lit "c5"
  ∧ order Samples.showing_five !! 0%nat = Some (lit "5")
  ∧ indexOf (order Samples.showing_five) (JStr (lit "X")) = -1
  ∧ className (change Samples.showing_five (JStr (lit "X")) true) = csp
  ∧ order (change Samples.showing_five (JStr (lit "X")) true) !! 0%nat = Some blank
  ∧ steps_queued Samples.showing_five
      (change Samples.showing_five (JStr (lit "X")) true) = 7.
Proof.
  assert (Hok : slot_ok true Samples.showing_five)
    by (apply (bool_decide_unpack _); vm_compute; exact I).
  destruct (proj1 (unknown_character_falls_back_to_blank (H := Samples.ascii_runtime))
              Samples.showing_five (JStr (lit "X")) true Hok eq_refl)
    as (Hcls & Hrest & _).
  split; [exact Hok|]. split; [reflexivity|]. split; [reflexivity|].
  split; [reflexivity|]. split; [exact Hcls|]. split; [exact Hrest|reflexivity].
Defined.

(** X25 on the busier station: 5 and 12 minutes first, the two trains due
    now last. *)
Lemma arrivals_sorted_by_key_witness :
  scheduled <$> arrivals (fetchAndWrite [Samples.busy_feed] ∅)
  = [JNum 5; JNum 12; zero_marker; zero_marker]
  ∧ 5 ≤ 12.
Proof.
  split; [by vm_compute|].
  exact (proj1 (proj2 (proj2 (arrivals_sorted_by_key [Samples.busy_feed] ∅)))
           0%nat 1%nat 5 12 ltac:(lia) eq_refl eq_refl).
Defined.

(** C5 on the four-element terminal group of the sample row, loaded with
    a longer lower-case word. *)
Lemma loadGroup_pads_and_truncates_witness :
  ∃ g elements,
    initRow Samples.template !! 1%nat = Some g
    ∧ body g = Text elements
    ∧ length elements = 4%nat
    ∧ group_characters (H := Samples.ascii_runtime) (lit "hello") 4
      = JStr <$> [lit "H"; lit "E"; lit "L"; lit "L"]
    ∧ body (loadGroup (H := Samples.ascii_runtime) (lit "hello") g)
      = Text (zip_with (λ span c, change span c true) elements
                (group_characters (H := Samples.ascii_runtime) (lit "hello") 4)).
Proof.
  eexists. eexists. split; [reflexivity|]. split; [reflexivity|].
  split; [reflexivity|]. split; [reflexivity|].
  apply (proj1 (proj2 (proj2 (proj2
           (loadGroup_pads_and_truncates (H := Samples.ascii_runtime) (lit "hello") 4)))));
    reflexivity.
Defined.

(** C7 on the numeric drum and a letter it lacks. *)
Lemma drums_blank_token_witness :
  indexOf (drum NumericKind) (JStr (lit "X")) = -1
  ∧ target_index (drum NumericKind) (JStr (lit "X")) = 0.
Proof.
  split; [reflexivity|].
  exact (proj2 (proj2 (drums_blank_token NumericKind)) (JStr (lit "X")) eq_refl).
Defined.

(* ===================================================================== *)
(** * Rotations, the frame of a change, and reloading                      *)
(* ===================================================================== *)

Section Rotation.
Context {A : Type}.

Lemma rem_as_mod (c len : Z) :
  0 < len →
  (0 ≤ Z.rem c len ∧ c mod len = Z.rem c len)
  ∨ (Z.rem c len < 0 ∧ c mod len = len + Z.rem c len).
Proof.
  intros Hlen.
  pose proof (Z.quot_rem' c len) as Hq.
  pose proof (Z.mod_pos_bound c len Hlen) as Hm.
  destruct (Z.le_gt_cases 0 c) as [Hc|Hc].
  - left. pose proof (Z.rem_bound_pos c len Hc Hlen) as Hr. split; [lia|].
    symmetry. apply (Z.mod_unique_pos c len (c ÷ len)); lia.
  - assert (- len < Z.rem c len ≤ 0) as Hr'.
    { pose proof (Z.rem_bound_pos (- c) len ltac:(lia) Hlen).
      rewrite Z.rem_opp_l in H by lia. lia. }
    destruct (Z.eq_dec (Z.rem c len) 0) as [Hz|Hnz].
    + left. split; [lia|]. symmetry.
      apply (Z.mod_unique_pos c len (c ÷ len)); lia.
    + right. split; [lia|]. symmetry.
      apply (Z.mod_unique_pos c len (c ÷ len - 1)); lia.
Qed.

Lemma rem_bounds (c len : Z) : 0 < len → - len < Z.rem c len < len.
Proof.
  intros Hlen. destruct (Z.le_gt_cases 0 c) as [Hc|Hc].
  - pose proof (Z.rem_bound_pos c len Hc Hlen). lia.
  - pose proof (Z.rem_bound_pos (- c) len ltac:(lia) Hlen) as Hr.
    rewrite Z.rem_opp_l in Hr by lia. lia.
Qed.

Lemma rotate_drop_take (l : list A) (count : Z) :
  let k := rotation_index l (toInt32 count) in
  rotate l count = drop k l ++ take k l.
Proof.
  intros k. destruct l as [|x l]; [by rewrite rotate_nil, drop_nil, take_nil|].
  unfold k, rotation_index, rotate, splice, js_rem.
  generalize (toInt32 count). intros c.
  set (xs := x :: l). set (len := Z.of_nat (length xs)).
  assert (Hlen : 0 < len) by (unfold len, xs; simpl; lia).
  assert (Hlen' : length xs = Z.to_nat len) by (unfold len; lia).
  destruct (Z.eqb_spec len 0) as [|_]; [lia|]. simpl.
  pose proof (rem_bounds c len Hlen) as Hb.
  destruct (rem_as_mod c len Hlen) as [[Hr Hm]|[Hr Hm]]; rewrite Hm.
  - destruct (Z.ltb_spec (Z.rem c len) 0) as [|_]; [lia|].
    rewrite (Z.min_l (Z.rem c len)) by lia.
    rewrite (take_ge (drop _ _)) by (rewrite length_drop; lia).
    rewrite (drop_ge xs (_ + _)) by lia. by rewrite app_nil_r.
  - destruct (Z.ltb_spec (Z.rem c len) 0) as [_|]; [|lia].
    rewrite (Z.max_l (len + Z.rem c len)) by lia.
    rewrite (take_ge (drop _ _)) by (rewrite length_drop; lia).
    rewrite (drop_ge xs (_ + _)) by lia. by rewrite app_nil_r.
Qed.

Lemma rotate_lookup (l : list A) (count : Z) (i : nat) :
  (i < length l)%nat →
  rotate l count !! i
  = l !! Z.to_nat ((Z.of_nat i + toInt32 count) mod Z.of_nat (length l)).
Proof.
  intros Hi. rewrite rotate_drop_take. unfold rotation_index.
  remember (Z.of_nat (length l)) as len eqn:Hlen'.
  generalize (toInt32 count). intros c.
  assert (Hlen : 0 < len) by lia.
  pose proof (Z.mod_pos_bound c len Hlen) as Hk.
  destruct (decide (i < length l - Z.to_nat (c mod len))%nat) as [Hlt|Hge].
  - rewrite lookup_app_l by (rewrite length_drop; lia).
    rewrite lookup_drop. f_equal.
    rewrite <- (Z.add_mod_idemp_r (Z.of_nat i) c len) by lia.
    rewrite (Z.mod_small (Z.of_nat i + c mod len) len) by lia. lia.
  - rewrite lookup_app_r by (rewrite length_drop; lia).
    rewrite length_drop, lookup_take_lt by lia. f_equal.
    rewrite <- (Z.add_mod_idemp_r (Z.of_nat i) c len) by lia.
    replace (Z.of_nat i + c mod len) with (Z.of_nat i + c mod len - len + 1 * len) by lia.
    rewrite Z.mod_add by lia.
    rewrite (Z.mod_small (Z.of_nat i + c mod len - len) len) by lia. lia.
Qed.

Lemma length_rotate (l : list A) (count : Z) : length (rotate l count) = length l.
Proof.
  rewrite rotate_drop_take. rewrite length_app, length_drop, length_take. lia.
Qed.

Lemma rotate_Permutation (l : list A) (count : Z) : rotate l count ≡ₚ l.
Proof. rewrite rotate_drop_take, (comm (++)). by rewrite take_drop. Qed.

End Rotation.

Section MoreChange.

Lemma increment_frame (values : list jsstring) (isChar : bool) (n i : nat) (s : Slot) :
  divClass (increment values isChar n i s) = divClass s
  ∧ order (increment values isChar n i s) = order s.
Proof.
  revert i s. induction n as [|n IH]; intros i s; [done|].
  cbn [increment]. destruct (values !! S i) as [v|]; [|apply IH].
  destruct (IH (S i) (show s v isChar)) as [-> ->]. done.
Qed.

Lemma change_order (s : Slot) (c : jsval) (isChar : bool) :
  order (change s c isChar) = rotate (order s) (target_index (order s) c).
Proof. done. Qed.

Lemma change_divClass (s : Slot) (c : jsval) (isChar : bool) :
  divClass (change s c isChar) = divClass s.
Proof. unfold change. simpl. apply increment_frame. Qed.

Lemma change_same_drum (s : Slot) (c : jsval) (isChar : bool) :
  same_drum s (change s c isChar).
Proof.
  split; [apply change_divClass|]. rewrite change_order.
  apply rotate_Permutation.
Qed.

Lemma change_unmoved (s : Slot) (c : jsval) (isChar : bool) :
  target_index (order s) c = -1 →
  fx (change s c isChar) = fx s ∧ className (change s c isChar) = className s.
Proof. intros Ht. unfold change. by rewrite Ht. Qed.

Lemma indexOf_head (values : list jsstring) (y : jsstring) :
  values !! 0%nat = Some y → indexOf values (JStr y) = 0.
Proof.
  destruct values as [|v values]; [done|]. simpl. intros [= ->].
  unfold indexOf. simpl. by destruct (decide (JStr y = JStr y)).
Qed.

(** A drum that starts with the character a target resolves to is not
    moved by this target. *)
Lemma target_index_front (values : list jsstring) (c : jsval) :
  values !! 0%nat = Some (resolve values c) → target_index values c = 0.
Proof.
  intros H0. unfold target_index.
  destruct (decide (indexOf values c = -1)) as [Habs|Hpres].
  - apply indexOf_head. rewrite H0. f_equal. unfold resolve.
    destruct c as [| | | |x]; try done.
    destruct (decide (x ∈ values)) as [Hx|]; [|done].
    by destruct (proj1 (indexOf_absent _ _) Habs x Hx).
  - destruct (indexOf_range values c) as [|Hr]; [done|].
    destruct (indexOf_found values c _ eq_refl) as (y & -> & Hy); [lia|].
    apply indexOf_head. rewrite H0. f_equal. unfold resolve.
    destruct (decide (y ∈ values)) as [|Hn]; [done|].
    destruct Hn. by eapply list_elem_of_lookup_2.
Qed.

Lemma change_idempotent (s : Slot) (c : jsval) (isChar : bool) :
  slot_ready isChar s → change (change s c isChar) c isChar = change s c isChar.
Proof.
  intros [Hnil|(Hb & Hlen & Hcur)].
  { by rewrite !(change_empty s) by done. }
  destruct (decide (target_index (order s) c = 0)) as [Hz|Hnz].
  - by rewrite !(change_stays s c) by done.
  - destruct (change_moves s c isChar Hb Hlen Hnz) as (_ & _ & H0 & Hp).
    apply change_stays, target_index_front.
    by rewrite (resolve_perm _ _ c Hp).
Qed.

End MoreChange.

Section MoreGroups.
Context `{Runtime}.

Lemma group_eq (g g' : Group) :
  classes g = classes g' → body g = body g' → contents g = contents g' → g = g'.
Proof. destruct g, g'. simpl. by intros -> -> ->. Qed.

Lemma loadGroup_status (input : jsstring) (g : Group) (divs : list StatusElem) :
  body g = Status divs →
  body (loadGroup input g)
  = Status ((λ d, {| sclasses := sclasses d;
                     son := selects (lit ".s" ++ input) (sclasses d) |}) <$> divs).
Proof.
  intros Hb. unfold loadGroup. rewrite Hb. cbn [body].
  generalize (lit ".s" ++ input). intros sel. f_equal.
  rewrite <- list_fmap_compose. apply list_fmap_ext. intros _ d _. simpl.
  by destruct (selects sel (sclasses d)).
Qed.

Lemma loadGroup_idempotent (input : jsstring) (g : Group) :
  group_ready g → loadGroup input (loadGroup input g) = loadGroup input g.
Proof.
  intros Hg. apply group_eq; [done| |done].
  unfold group_ready in Hg. destruct (body g) as [divs|span|elements] eqn:Hb.
  - rewrite (loadGroup_status input _ _ (loadGroup_status input _ _ Hb)).
    rewrite (loadGroup_status input _ _ Hb). f_equal.
    by rewrite <- list_fmap_compose.
  - rewrite (loadGroup_image input _ _ (loadGroup_image input _ _ Hb)).
    rewrite (loadGroup_image input _ _ Hb). f_equal. by apply change_idempotent.
  - rewrite (loadGroup_text input _ _ (loadGroup_text input _ _ Hb)).
    rewrite (loadGroup_text input _ _ Hb). f_equal.
    apply list_eq. intros j. rewrite !list_lookup_imap.
    destruct (elements !! j) as [span|] eqn:Hj; [|done]. simpl. f_equal.
    apply change_idempotent. by eapply (proj1 (Forall_lookup _ _) Hg).
Qed.

Lemma load_field_idempotent (data : DataItem) (g : Group) :
  group_ready g → load_field data (load_field data g) = load_field data g.
Proof.
  intros Hg.
  assert (Hd : datum data (load_field data g) = datum data g) by (by apply datum_classes).
  apply group_eq; [done| |by rewrite !load_field_contents].
  rewrite (load_field_body data (load_field data g)), Hd.
  rewrite (loadGroup_body_irrel _ (load_field data g)
             (loadGroup (toString (datum data g)) g)) by apply load_field_body.
  rewrite loadGroup_idempotent by done. symmetry. apply load_field_body.
Qed.

Lemma same_drum_refl (s : Slot) : same_drum s s.
Proof. by split. Qed.

Lemma loadGroup_same_shape (input : jsstring) (g : Group) :
  same_shape g (loadGroup input g).
Proof.
  split; [done|]. destruct (body g) as [divs|span|elements] eqn:Hb.
  - rewrite (loadGroup_status _ _ _ Hb). rewrite <- list_fmap_compose.
    by apply list_fmap_ext.
  - rewrite (loadGroup_image _ _ _ Hb). apply change_same_drum.
  - rewrite (loadGroup_text _ _ _ Hb). apply Forall2_same_length_lookup.
    split; [by rewrite length_imap|]. intros i s s' Hs.
    rewrite list_lookup_imap, Hs. simpl. intros [= <-]. apply change_same_drum.
Qed.

Lemma same_shape_body (g g1 g2 : Group) :
  classes g1 = classes g2 → body g1 = body g2 → same_shape g g1 → same_shape g g2.
Proof. unfold same_shape. by intros -> ->. Qed.

Lemma load_field_same_shape (data : DataItem) (g : Group) :
  same_shape g (load_field data g).
Proof.
  eapply same_shape_body; [| |apply (loadGroup_same_shape (toString (datum data g)))];
    done.
Qed.

End MoreGroups.

Section Landing.
Context `{Runtime}.

Lemma indexOf_first (arr : list jsstring) (y : jsstring) (k : nat) :
  arr !! k = Some y → y ∉ take k arr → indexOf arr (JStr y) = Z.of_nat k.
Proof.
  intros Hk Hbefore. unfold indexOf. rewrite indexOf_from_find.
  destruct (list_find (λ z, JStr z = JStr y) arr) as [[k' z]|] eqn:Hf.
  - apply list_find_Some in Hf as (Hk' & Hz & Hmin). injection Hz as ->.
    destruct (Nat.lt_trichotomy k' k) as [Hlt|[->|Hgt]]; [|lia|].
    + destruct Hbefore. apply (list_elem_of_lookup_2 _ k').
      by rewrite lookup_take_lt.
    + by destruct (Hmin k y Hk Hgt).
  - apply list_find_None in Hf.
    destruct (proj1 (Forall_forall _ _) Hf y); [|done].
    by eapply list_elem_of_lookup_2.
Qed.

(** The steps a rotation queues, by the index it steps to. *)
Lemma change_steps (s : Slot) (c : jsval) (isChar : bool) :
  take (length (fx s)) (fx (change s c isChar)) = fx s
  ∧ steps_queued s (change s c isChar) = Z.max 0 (target_index (order s) c)
  ∧ drop (length (fx s)) (fx (change s c isChar))
    = (λ v, show_class v isChar)
        <$> take (Z.to_nat (target_index (order s) c)) (drop 1 (order s)).
Proof.
  unfold steps_queued.
  destruct (target_index_range (order s) c) as [Hneg|Hr].
  - destruct (change_unmoved s c isChar Hneg) as [-> _]. rewrite Hneg. simpl.
    rewrite take_ge, drop_ge by lia. repeat split; lia.
  - destruct (change_fields s c isChar) as (_ & _ & -> & _); [lia|].
    rewrite take_app_length, drop_app_length, length_app, length_fmap.
    rewrite length_take_le by (rewrite length_drop; lia). repeat split; lia.
Qed.





End Landing.

(** X1.  [rotate] is a rotation for every count: the result has the
    length and the elements of the array, it starts at the index
    [count mod length] ([count] read as a signed 32-bit integer, which
    changes nothing between [-2^31] and [2^31 - 1]), and its element [i]
    is element [(i + count) mod length] of the array. *)
Theorem rotate_is_rotation {A} (l : list A) (count : Z) :
  length (rotate l count) = length l
  ∧ rotate l count ≡ₚ l
  ∧ rotate l count
    = drop (rotation_index l (toInt32 count)) l
      ++ take (rotation_index l (toInt32 count)) l
  ∧ (∀ i, (i < length l)%nat →
       rotate l count !! i
       = l !! Z.to_nat ((Z.of_nat i + toInt32 count) mod Z.of_nat (length l)))
  ∧ (- 2 ^ 31 ≤ count < 2 ^ 31 → toInt32 count = count).
Proof.
  split; [apply length_rotate|].
  split; [apply rotate_Permutation|].
  split; [apply rotate_drop_take|]. split; [intros i; apply rotate_lookup|].
  apply toInt32_small.
Qed.

(** X2.  Rotations compose by adding their counts, as long as the counts
    and their sum are 32-bit integers; rotating by [a] and then by [-a]
    gives the array back. *)
Theorem rotate_rotate {A} (l : list A) (a b : Z) :
  - 2 ^ 31 ≤ a < 2 ^ 31 → - 2 ^ 31 ≤ b < 2 ^ 31 → - 2 ^ 31 ≤ a + b < 2 ^ 31 →
  rotate (rotate l a) b = rotate l (a + b)
  ∧ (a + b = 0 → rotate (rotate l a) b = l).
Proof.
  intros Ha Hb Hab.
  assert (Heq : rotate (rotate l a) b = rotate l (a + b)).
  { apply list_eq. intros i.
    destruct (decide (i < length l)%nat) as [Hi|Hi]; cycle 1.
    { rewrite !lookup_ge_None_2; [done| |]; rewrite ?length_rotate; lia. }
    remember (Z.of_nat (length l)) as len eqn:Hlen.
    assert (Hpos : 0 < len) by lia.
    rewrite (rotate_lookup (rotate l a)) by (rewrite length_rotate; lia).
    rewrite length_rotate, <- Hlen, (toInt32_small b) by done.
    pose proof (Z.mod_pos_bound (Z.of_nat i + b) len Hpos) as Hj.
    rewrite rotate_lookup by lia.
    rewrite rotate_lookup by lia.
    rewrite <- Hlen, (toInt32_small a), (toInt32_small (a + b)) by done.
    rewrite Z2Nat.id by lia. rewrite Z.add_mod_idemp_l by lia.
    by replace (Z.of_nat i + b + a) with (Z.of_nat i + (a + b)) by lia. }
  split; [done|]. intros Hz. rewrite Heq, Hz. apply rotate_0.
Qed.


(** X3.  The number of show steps [change] queues is the index
    [indexOf] finds the target at, that is its first position on the
    drum; the index of the blank when the target is absent; none when the
    blank is absent too.  It is below the length of the drum, the steps
    show the characters after index 0 in drum order, and what was queued
    before stays in front. *)
Theorem change_step_count (s : Slot) (c : jsval) (isChar : bool) :
  let found := indexOf (order s) c in
  let fallback := indexOf (order s) (JStr blank) in
  let s' := change s c isChar in
  take (length (fx s)) (fx s') = fx s
  ∧ (0 ≤ found → steps_queued s s' = found)
  ∧ (found = -1 → 0 ≤ fallback → steps_queued s s' = fallback)
  ∧ (found = -1 → fallback = -1 → fx s' = fx s)
  ∧ 0 ≤ steps_queued s s' < Z.max 1 (Z.of_nat (length (order s)))
  ∧ (∀ (k : nat) (y : jsstring),
       c = JStr y → order s !! k = Some y → y ∉ take k (order s) →
       steps_queued s s' = Z.of_nat k)
  ∧ (∀ k : nat,
       found = -1 → order s !! k = Some blank → blank ∉ take k (order s) →
       steps_queued s s' = Z.of_nat k)
  ∧ drop (length (fx s)) (fx s')
    = (λ v, show_class v isChar)
        <$> take (Z.to_nat (steps_queued s s')) (drop 1 (order s)).
Proof.
  intros found fallback s'. unfold s'.
  destruct (change_steps s c isChar) as (Hfront & Hsteps & Hqueued).
  assert (Ht : target_index (order s) c = if decide (found = -1) then fallback else found)
    by done.
  pose proof (indexOf_range (order s) c) as Hfound. fold found in Hfound.
  pose proof (indexOf_range (order s) (JStr blank)) as Hfall. fold fallback in Hfall.
  assert (Hfirst : 0 ≤ found → steps_queued s (change s c isChar) = found).
  { intros Hpos. rewrite Hsteps, Ht. destruct (decide (found = -1)); lia. }
  assert (Hblank : found = -1 → 0 ≤ fallback →
            steps_queued s (change s c isChar) = fallback).
  { intros Habs Hpos. rewrite Hsteps, Ht. destruct (decide (found = -1)); lia. }
  split; [done|]. split; [done|]. split; [done|]. split; [|split; [|split; [|split]]].
  - intros Habs Hnone. apply change_unmoved. rewrite Ht.
    by destruct (decide (found = -1)).
  - rewrite Hsteps, Ht. destruct (decide (found = -1)); lia.
  - intros k y -> Hk Hbefore. rewrite Hfirst; unfold found.
    + by apply indexOf_first.
    + rewrite (indexOf_first _ _ _ Hk Hbefore). lia.
  - intros k Habs Hk Hbefore. rewrite Hblank; unfold fallback; try done.
    + by apply indexOf_first.
    + rewrite (indexOf_first _ _ _ Hk Hbefore). lia.
  - rewrite Hqueued, Hsteps. do 2 f_equal.
    destruct (target_index_range (order s) c); lia.
Qed.

(** X4.  On a drum that has neither the target nor the blank, [change]
    queues nothing and leaves the class alone, but still rotates the stored
    drum: its last character moves to index 0. *)
Theorem change_without_blank (s : Slot) (c : jsval) (isChar : bool) :
  order s ≠ [] → blank ∉ order s → indexOf (order s) c = -1 →
  fx (change s c isChar) = fx s
  ∧ className (change s c isChar) = className s
  ∧ order (change s c isChar)
    = drop (length (order s) - 1) (order s) ++ take (length (order s) - 1) (order s)
  ∧ order (change s c isChar) !! 0%nat = last (order s).
Proof.
  intros Hne Hb Hc.
  assert (Ht : target_index (order s) c = -1).
  { unfold target_index. rewrite Hc. destruct (decide (-1 = -1)); [|done].
    apply indexOf_absent. intros y Hy [= ->]. done. }
  destruct (change_unmoved s c isChar Ht) as [-> ->].
  split; [done|]. split; [done|].
  assert (Hlen : (0 < length (order s))%nat) by (destruct (order s); [done|simpl; lia]).
  assert (Hk : rotation_index (order s) (toInt32 (-1)) = (length (order s) - 1)%nat).
  { unfold rotation_index. change (toInt32 (-1)) with (-1).
    rewrite <- (Z.mod_unique_pos (-1) (Z.of_nat (length (order s))) (-1)
                  (Z.of_nat (length (order s)) - 1)) by lia. lia. }
  assert (Ho : order (change s c isChar)
    = drop (length (order s) - 1) (order s) ++ take (length (order s) - 1) (order s)).
  { rewrite change_order, Ht, rotate_drop_take. by rewrite Hk. }
  split; [done|]. rewrite Ho, lookup_app_l by (rewrite length_drop; lia).
  rewrite lookup_drop, last_lookup. f_equal. lia.
Qed.

(** X5.  Loading what is already loaded does nothing: a second rotation to
    the same character, a second load of the same record into a row and a
    second clear leave the state as it is, with no step queued, on every
    row reachable from [board_init]. *)
Theorem reload_changes_nothing `{Runtime} :
  (∀ (s : Slot) (c : jsval) (isChar : bool),
     slot_ready isChar s → change (change s c isChar) c isChar = change s c isChar)
  ∧ (∀ (data : DataItem) (row : Row),
       row_ready row → loadRow data (loadRow data row) = loadRow data row)
  ∧ (∀ row : Row, row_ready row → clearRow (clearRow row) = clearRow row).
Proof.
  split; [apply change_idempotent|]. split.
  - intros data row Hrow. unfold loadRow. rewrite <- list_fmap_compose.
    apply list_fmap_ext. intros i g Hg. simpl.
    apply load_field_idempotent. by eapply (proj1 (Forall_lookup _ _) Hrow).
  - intros row Hrow. unfold clearRow. rewrite <- list_fmap_compose.
    apply list_fmap_ext. intros i g Hg. simpl.
    apply loadGroup_idempotent. by eapply (proj1 (Forall_lookup _ _) Hrow).
Qed.

(** X6.  Loading never alters the structure of the board: a group keeps
    its classes, its kind and its number of elements, an element keeps the
    class of its [<div>] and the characters of its drum (only their
    rotation changes), a status group keeps its sub-elements; so do rows
    and boards under [loadRow], [clearRow] and a sequencer pass. *)
Theorem loading_keeps_shape `{Runtime} :
  (∀ (s : Slot) (c : jsval) (isChar : bool), same_drum s (change s c isChar))
  ∧ (∀ (input : jsstring) (g : Group), same_shape g (loadGroup input g))
  ∧ (∀ (data : DataItem) (row : Row), Forall2 same_shape row (loadRow data row))
  ∧ (∀ row : Row, Forall2 same_shape row (clearRow row))
  ∧ (∀ (input : list DataItem) (rows : Board),
       Forall2 (Forall2 same_shape) rows (pass input rows)).
Proof.
  assert (Hload : ∀ (data : DataItem) (row : Row), Forall2 same_shape row (loadRow data row)).
  { intros data row. unfold loadRow. apply Forall2_fmap_r, Forall_Forall2_diag.
    apply Forall_true. intros g. apply load_field_same_shape. }
  assert (Hclear : ∀ row : Row, Forall2 same_shape row (clearRow row)).
  { intros row. unfold clearRow. apply Forall2_fmap_r, Forall_Forall2_diag.
    apply Forall_true. intros g. apply loadGroup_same_shape. }
  split; [apply change_same_drum|]. split; [apply loadGroup_same_shape|].
  split; [done|]. split; [done|].
  intros input rows. apply Forall2_same_length_lookup.
  split; [by rewrite length_pass|]. intros i row row' Hrow.
  unfold pass. rewrite list_lookup_imap, Hrow. simpl. intros [= <-].
  unfold act_row. by destruct (input !! i).
Qed.

(** X7.  Building the board only attaches a fresh drum to every element:
    [initRow]'s final [change(span, ' ')] finds the blank at index 0 (or an
    empty image drum), so it queues no step and the element keeps the class
    the template gave it. *)
Theorem initSpan_attaches_drum_only (span : Slot) :
  initSpan span
  = {| divClass := divClass span; order := drum_for (divClass span);
       className := className span; fx := fx span |}.
Proof.
  unfold initSpan, drum_for. destruct (kind_of_class (divClass span)).
  4: by rewrite change_empty.
  all: by rewrite change_stays.
Qed.

(* ===================================================================== *)
(** * Rejected selectors, cleared rows and the round trip                  *)
(* ===================================================================== *)

Section Exceptions.
Context `{Runtime} `{Selectors}.

Lemma loadGroup_returns (input : jsstring) (g : Group) :
  group_parses input g → Throwing.loadGroup input g = Returned (loadGroup input g).
Proof.
  unfold group_parses, Throwing.loadGroup, loadGroup.
  destruct (body g); [intros ->|..]; done.
Qed.

Lemma loadGroup_throws (input : jsstring) (g : Group) :
  ¬ group_parses input g →
  ∃ divs,
    body g = Status divs
    ∧ parses (lit ".s" ++ input) = false
    ∧ Throwing.loadGroup input g
      = Thrown {| classes := classes g;
                  body := Status ((λ d, {| sclasses := sclasses d; son := false |})
                                    <$> divs);
                  contents := contents g |}.
Proof.
  unfold group_parses, Throwing.loadGroup.
  destruct (body g) as [divs| |]; [|done..]. intros Hp. exists divs.
  by destruct (parses (lit ".s" ++ input)).
Qed.

Lemma each_returns (callback : Group → Outcome Group) (f : Group → Group)
    (groups : list Group) :
  Forall (λ g, callback g = Returned (f g)) groups →
  Throwing.each callback groups = Returned (f <$> groups).
Proof.
  induction 1 as [|g groups Hg _ IH]; [done|]. simpl. by rewrite Hg, IH.
Qed.

(** An exception in the callback leaves [each] at the first group that
    raises: the groups before it are done, those after it untouched. *)
Lemma each_throws (callback : Group → Outcome Group) (f : Group → Group)
    (groups : list Group) :
  Forall (λ g, callback g = Returned (f g) ∨ ∃ g', callback g = Thrown g') groups →
  ¬ Forall (λ g, callback g = Returned (f g)) groups →
  ∃ k g g',
    groups !! k = Some g ∧ callback g = Thrown g'
    ∧ Throwing.each callback groups
      = Thrown ((f <$> take k groups) ++ g' :: drop (S k) groups).
Proof.
  induction 1 as [|g groups Hg _ IH]; intros Hnot.
  { destruct Hnot. constructor. }
  destruct Hg as [Hg|[g' Hg]].
  - destruct IH as (k & x & x' & Hk & Hx & Heach).
    { intros Hall. apply Hnot. by constructor. }
    exists (S k), x, x'. split; [done|]. split; [done|].
    simpl. by rewrite Hg, Heach.
  - exists 0%nat, g, g'. split; [done|]. split; [done|].
    simpl. by rewrite Hg, drop_0.
Qed.

Lemma clearRow_returns (row : Row) :
  Throwing.clearRow row = Returned (clearRow row).
Proof.
  apply each_returns, Forall_true. intros g. apply loadGroup_returns.
  unfold group_parses. destruct (body g); [apply parses_blank|done..].
Qed.

Lemma load_field_returns (data : DataItem) (g : Group) :
  group_parses (toString (datum data g)) g →
  Throwing.load_field data g = Returned (load_field data g).
Proof.
  intros Hp. unfold Throwing.load_field. fold (datum data g).
  by rewrite (loadGroup_returns _ _ Hp).
Qed.

Lemma load_field_throws (data : DataItem) (g : Group) :
  ¬ group_parses (toString (datum data g)) g →
  ∃ divs,
    body g = Status divs
    ∧ parses (lit ".s" ++ toString (datum data g)) = false
    ∧ Throwing.load_field data g
      = Thrown {| classes := classes g;
                  body := Status ((λ d, {| sclasses := sclasses d; son := false |})
                                    <$> divs);
                  contents := contents g |}.
Proof.
  intros Hp. unfold Throwing.load_field. fold (datum data g).
  destruct (loadGroup_throws _ _ Hp) as (divs & Hb & Hs & ->). by exists divs.
Qed.

Lemma loadRow_returns (data : DataItem) (row : Row) :
  row_parses data row → Throwing.loadRow data row = Returned (loadRow data row).
Proof.
  intros Hp. apply each_returns. eapply Forall_impl; [exact Hp|].
  intros g. apply load_field_returns.
Qed.

(** A record that builds a rejected selector leaves [loadRow] at its status
    group: the groups before it are loaded, the highlights of the status
    group are removed, its [contents] and the groups after it are
    untouched. *)
Lemma loadRow_throws (data : DataItem) (row : Row) :
  ¬ row_parses data row →
  ∃ k g divs,
    row !! k = Some g ∧ body g = Status divs
    ∧ parses (lit ".s" ++ toString (datum data g)) = false
    ∧ Throwing.loadRow data row
      = Thrown ((load_field data <$> take k row)
                ++ {| classes := classes g;
                      body := Status ((λ d, {| sclasses := sclasses d; son := false |})
                                        <$> divs);
                      contents := contents g |}
                :: drop (S k) row).
Proof.
  intros Hp.
  destruct (each_throws (Throwing.load_field data) (load_field data) row)
    as (k & g & g' & Hk & Hg & Heach).
  - apply Forall_true. intros g.
    destruct (decide (group_parses (toString (datum data g)) g)) as [Hg|Hg].
    + left. by apply load_field_returns.
    + right. destruct (load_field_throws _ _ Hg) as (divs & _ & _ & ->). by eexists.
  - intros Hall. apply Hp. eapply Forall_impl; [exact Hall|].
    intros g Hg. simpl in Hg.
    destruct (decide (group_parses (toString (datum data g)) g)) as [|Hn]; [done|].
    destruct (load_field_throws _ _ Hn) as (divs & _ & _ & Hg'). congruence.
  - destruct (decide (group_parses (toString (datum data g)) g)) as [Hp'|Hn].
    { rewrite (load_field_returns _ _ Hp') in Hg. done. }
    destruct (load_field_throws _ _ Hn) as (divs & Hb & Hs & Hg').
    rewrite Hg' in Hg. injection Hg as <-.
    by exists k, g, divs.
Qed.

Lemma on_row_returns (f : Row → Outcome Row) (g : Row → Row) (i : nat)
    (rows : Board) :
  (∀ row, rows !! i = Some row → f row = Returned (g row)) →
  Throwing.on_row f i rows = Returned (alter g i rows).
Proof.
  intros Hf. unfold Throwing.on_row.
  destruct (rows !! i) as [row|] eqn:Hi.
  - rewrite (Hf row eq_refl). f_equal. apply list_eq. intros j.
    destruct (decide (i = j)) as [<-|Hne].
    + rewrite list_lookup_alter_eq, Hi. simpl.
      apply list_lookup_insert_eq. by eapply lookup_lt_Some.
    + by rewrite list_lookup_alter_ne, list_lookup_insert_ne.
  - f_equal. apply list_eq. intros j.
    destruct (decide (i = j)) as [<-|Hne].
    + by rewrite list_lookup_alter_eq, Hi.
    + by rewrite list_lookup_alter_ne.
Qed.

(** While no selector is rejected the callbacks go as in [Display.loop]. *)
Lemma loop_returns (fuel : nat) (input : list DataItem) (i : nat) (rows : Board)
    (log : list RowAction) :
  (∀ j data row, (i ≤ j)%nat → input !! j = Some data → rows !! j = Some row →
                 row_parses data row) →
  Throwing.loop fuel input i rows log = Returned <$> loop fuel input i rows log.
Proof.
  revert i rows log. induction fuel as [|fuel IH]; intros i rows log Hp; [done|].
  cbn [Throwing.loop loop].
  destruct (input !! i) as [data|] eqn:Hin.
  - rewrite (on_row_returns _ (loadRow data)); cycle 1.
    { intros row Hrow. apply loadRow_returns. by eapply (Hp i). }
    destruct (decide (S i < length (alter (loadRow data) i rows))%nat); [|done].
    apply IH. intros j d r Hj Hd Hr.
    rewrite list_lookup_alter_ne in Hr by lia. eapply (Hp j); (done || lia).
  - rewrite (on_row_returns _ clearRow) by (intros; apply clearRow_returns).
    destruct (decide (S i < length (alter clearRow i rows))%nat); [|done].
    apply IH. intros j d r Hj Hd Hr.
    rewrite list_lookup_alter_ne in Hr by lia. eapply (Hp j); (done || lia).
Qed.

Lemma loadSequentially_returns (fuel : nat) (input : list DataItem) (rows : Board) :
  (1 ≤ fuel)%nat → (length rows ≤ fuel)%nat →
  (∀ i data row, input !! i = Some data → rows !! i = Some row → row_parses data row) →
  Throwing.loadSequentially fuel input rows
  = Some (Returned (pass input rows,
                    (row_action input <$> seq 0 (max 1 (length rows))) ++ [BoardRendered])).
Proof.
  intros H1 Hn Hp. unfold Throwing.loadSequentially.
  rewrite loop_returns by (intros j data row _; apply Hp).
  fold (loadSequentially fuel input rows). by rewrite loadSequentially_spec.
Qed.

(** The first record that builds a rejected selector ends the pass: its
    row is left where the exception was raised, the rows before it have
    been acted on, those after it have not. *)
Lemma loop_throws (fuel : nat) (input : list DataItem) (i i0 : nat) (rows : Board)
    (log : list RowAction) (data : DataItem) (row : Row) :
  (i ≤ i0)%nat → (i0 - i < fuel)%nat →
  input !! i0 = Some data → rows !! i0 = Some row → ¬ row_parses data row →
  (∀ j d r, (i ≤ j < i0)%nat → input !! j = Some d → rows !! j = Some r →
            row_parses d r) →
  Throwing.loop fuel input i rows log
  = Some (Thrown
            (<[i0 := state_of (Throwing.loadRow data row)]>
               (imap (λ j r, if decide (i ≤ j < i0)%nat then act_row input j r else r) rows),
             log ++ (row_action input <$> seq i (S i0 - i)))).
Proof.
  revert i rows log. induction fuel as [|fuel IH];
    intros i rows log Hi Hfuel Hd Hrow Hnp Hp; [lia|].
  cbn [Throwing.loop].
  destruct (decide (i = i0)) as [->|Hne].
  - rewrite Hd. unfold Throwing.on_row. rewrite Hrow.
    destruct (loadRow_throws data row Hnp) as (k & g & divs & _ & _ & _ & ->). simpl.
    replace (S i0 - i0)%nat with 1%nat by lia. simpl.
    assert (Himap :
      imap (λ j r, if decide (i0 ≤ j < i0)%nat then act_row input j r else r) rows
      = rows).
    { apply list_eq. intros j. rewrite list_lookup_imap.
      destruct (rows !! j) as [r|]; [|done]. simpl.
      by destruct (decide (i0 ≤ j < i0)%nat); [lia|]. }
    rewrite Himap. unfold row_action. by rewrite Hd.
  - assert (Hlt : (i < i0)%nat) by lia.
    pose proof (lookup_lt_Some _ _ _ Hrow) as Hlen.
    assert (Hstep :
      (let '(acted, action) :=
         match input !! i with
         | Some data => (Throwing.on_row (Throwing.loadRow data) i rows, LoadRow i data)
         | None => (Throwing.on_row Throwing.clearRow i rows, ClearRow i)
         end in (acted, action))
      = (Returned (alter (act_row input i) i rows), row_action input i)).
    { unfold act_row, row_action. destruct (input !! i) as [d|] eqn:Hin.
      - rewrite (on_row_returns _ (loadRow d)); [done|].
        intros r Hr. apply loadRow_returns. eapply (Hp i); (done || lia).
      - by rewrite (on_row_returns _ clearRow) by (intros; apply clearRow_returns). }
    destruct (match input !! i with
              | Some data => (Throwing.on_row (Throwing.loadRow data) i rows, LoadRow i data)
              | None => (Throwing.on_row Throwing.clearRow i rows, ClearRow i)
              end) as [acted action].
    injection Hstep as -> ->. rewrite length_alter.
    destruct (decide (S i < length rows)%nat); [|lia].
    rewrite (IH (S i)); try (done || lia).
    + f_equal. f_equal. f_equal.
      * f_equal. apply list_eq. intros j. rewrite !list_lookup_imap.
        destruct (decide (i = j)) as [<-|Hij].
        -- rewrite list_lookup_alter_eq. destruct (rows !! i); [|done]. simpl.
           destruct (decide (S i ≤ i < i0)%nat); [lia|].
           by destruct (decide (i ≤ i < i0)%nat); [|lia].
        -- rewrite list_lookup_alter_ne by done. destruct (rows !! j); [|done]. simpl.
           destruct (decide (S i ≤ j < i0)%nat), (decide (i ≤ j < i0)%nat);
             (done || lia).
      * rewrite <- app_assoc. f_equal.
        replace (S i0 - i)%nat with (S (S i0 - S i)) by lia. done.
    + by rewrite list_lookup_alter_ne by lia.
    + intros j d r Hj Hdj Hr. rewrite list_lookup_alter_ne in Hr by lia.
      eapply (Hp j); (done || lia).
Qed.

(** What a clear makes of an element a board can hold. *)
Lemma change_blank_cleared (isChar : bool) (s : Slot) :
  slot_ready isChar s → slot_cleared s (change s (JStr blank) isChar).
Proof.
  intros [Hnil|(Hb & Hlen & _)].
  { rewrite change_empty by done. split; [by left|by right]. }
  destruct (target_index_resolve (order s) (JStr blank) Hb) as (Hr & Ht).
  rewrite (resolve_blank _ Hb) in Ht.
  destruct (decide (target_index (order s) (JStr blank) = 0)) as [Hz|Hnz].
  - rewrite change_stays by done. rewrite Hz in Ht. split; [by right|by right].
  - destruct (change_moves s (JStr blank) isChar Hb Hlen Hnz) as (_ & Hc & Hrest & _).
    rewrite (resolve_blank _ Hb) in Hc, Hrest.
    split; [by right|]. left. rewrite Hc. by destruct isChar.
Qed.

Lemma loadGroup_blank_cleared (g : Group) :
  group_ready g → group_cleared g (loadGroup blank g).
Proof.
  unfold group_ready, group_cleared.
  destruct (body g) as [divs|span|elements] eqn:Hb.
  - intros _. by rewrite (loadGroup_status _ _ _ Hb).
  - rewrite (loadGroup_image _ _ _ Hb). apply change_blank_cleared.
  - rewrite (loadGroup_text _ _ _ Hb). intros Hok.
    apply Forall2_same_length_lookup. split; [by rewrite length_imap|].
    intros i s s' Hs. rewrite list_lookup_imap, Hs. simpl. intros [= <-].
    rewrite target_char_blank. apply change_blank_cleared.
    by eapply (proj1 (Forall_lookup _ _) Hok).
Qed.

Lemma clearRow_cleared (row : Row) : row_ready row → row_cleared row (clearRow row).
Proof.
  intros Hok. unfold row_cleared, clearRow. apply Forall2_fmap_r, Forall_Forall2_diag.
  eapply Forall_impl; [exact Hok|]. intros g. apply loadGroup_blank_cleared.
Qed.

End Exceptions.

(** C3, as the code has it.  While no record builds a selector the engine
    rejects, one pass of the sequencer acts on the rows 0, 1, ... in this
    order, once each, loading [input[i]] into row [i] when there is one
    and clearing the row otherwise (on a board without rows its one
    callback finds no row to act on), and then signals the rendered board.
    With 5 rows and 3 records rows 3 and 4 are cleared: every element of a
    row as a board holds it rests on the blank of its drum, under the
    blank class or left as it was when it rested already; a row in
    working order ends all blank. *)
Theorem loadSequentially_one_action_per_row `{Runtime} `{Selectors} (fuel : nat)
    (input : list DataItem) (rows : Board) :
  (1 ≤ fuel)%nat → (length rows ≤ fuel)%nat →
  (∀ i data row, input !! i = Some data → rows !! i = Some row → row_parses data row) →
  ∃ log,
    Throwing.loadSequentially fuel input rows = Some (Returned (pass input rows, log))
    ∧ log = (row_action input <$> seq 0 (max 1 (length rows))) ++ [BoardRendered]
    ∧ omap action_index log = seq 0 (max 1 (length rows))
    ∧ length (pass input rows) = length rows
    ∧ (∀ i row, rows !! i = Some row →
         ∃ row',
           pass input rows !! i = Some row'
           ∧ match input !! i with
             | Some data => Throwing.loadRow data row = Returned row'
             | None => Throwing.clearRow row = Returned row'
             end)
    ∧ (length rows = 5%nat → length input = 3%nat →
       ∀ i row, i = 3%nat ∨ i = 4%nat → rows !! i = Some row →
         pass input rows !! i = Some (clearRow row)
         ∧ Throwing.clearRow row = Returned (clearRow row)
         ∧ (row_ready row → row_cleared row (clearRow row))
         ∧ (row_ok row → row_blank (clearRow row))).
Proof.
  intros H1 Hn Hp. eexists. split; [by apply loadSequentially_returns|].
  split; [done|]. split; [apply action_indices|]. split; [apply length_pass|].
  assert (Hpass : ∀ i row, rows !! i = Some row →
            pass input rows !! i = Some (act_row input i row)).
  { intros i row Hi. unfold pass. by rewrite list_lookup_imap, Hi. }
  split.
  - intros i row Hrow. eexists. split; [by apply Hpass|]. unfold act_row.
    destruct (input !! i) as [data|] eqn:Hin.
    + apply loadRow_returns. by eapply Hp.
    + apply clearRow_returns.
  - intros Hrows Hinput i row Hi Hrow.
    split; [|split; [apply clearRow_returns|split; [apply clearRow_cleared|apply clearRow_blank]]].
    rewrite (Hpass _ _ Hrow). unfold act_row.
    by rewrite (lookup_ge_None_2 input i) by lia.
Qed.

(** C3, as stated, fails.  A record whose status is ['#'] builds the
    selector [.s#]: the exception leaves the callback of row 0, and the
    rows 1 to 4 get no action.  And on a board whose template gives the
    elements no class, the rows 3 and 4 a pass has cleared keep that
    class: they do not show the blank class. *)
Lemma pass_left_at_rejected_status :
  (∃ rows',
     Throwing.loadSequentially (H := Samples.ascii_runtime) (H0 := Samples.ascii_selectors)
       5 [Samples.r_hash; Samples.r1; Samples.r2] (Samples.board 5)
     = Some (Thrown (rows', [LoadRow 0 Samples.r_hash]))
     ∧ drop 1 rows' = drop 1 (Samples.board 5))
  ∧ (∃ rows' log,
       Throwing.loadSequentially (H := Samples.ascii_runtime) (H0 := Samples.ascii_selectors)
         5 [Samples.r0; Samples.r1; Samples.r2] (board_init 5 Samples.plain_template)
       = Some (Returned (rows', log))
       ∧ Forall (λ row, ¬ row_blank row) (drop 3 rows')).
Proof.
  split.
  - eexists. split; [by vm_compute|]. by vm_compute.
  - eexists. eexists. split; [by vm_compute|].
    repeat constructor; intros Hb; apply Forall_cons in Hb as [Hg _];
      unfold group_blank in Hg; simpl in Hg; apply Forall_cons in Hg as [Hs _];
      discriminate Hs.
Qed.

(** X26.  The first record that builds a selector the engine rejects ends
    the pass: the rows before it have been acted on, its own row is left
    where the exception was raised (the groups before the status group
    loaded, the highlights of the status group removed, its [contents]
    and the groups after it untouched), the rows after it get no action,
    and the rendered board is not signalled. *)
Theorem pass_stops_at_rejected_selector `{Runtime} `{Selectors} (fuel : nat)
    (input : list DataItem) (rows : Board) (i0 : nat) (data : DataItem) (row : Row) :
  (i0 < fuel)%nat →
  input !! i0 = Some data → rows !! i0 = Some row → ¬ row_parses data row →
  (∀ j d r, (j < i0)%nat → input !! j = Some d → rows !! j = Some r → row_parses d r) →
  ∃ rows' k g divs,
    Throwing.loadSequentially fuel input rows
    = Some (Thrown (rows', row_action input <$> seq 0 (S i0)))
    ∧ length rows' = length rows
    ∧ (∀ j, (j < i0)%nat → rows' !! j = pass input rows !! j)
    ∧ (∀ j, (i0 < j)%nat → rows' !! j = rows !! j)
    ∧ row !! k = Some g ∧ body g = Status divs
    ∧ parses (lit ".s" ++ toString (datum data g)) = false
    ∧ rows' !! i0
      = Some ((load_field data <$> take k row)
              ++ {| classes := classes g;
                    body := Status ((λ d, {| sclasses := sclasses d; son := false |})
                                      <$> divs);
                    contents := contents g |}
              :: drop (S k) row).
Proof.
  intros Hfuel Hd Hrow Hnp Hp.
  pose proof (lookup_lt_Some _ _ _ Hrow) as Hlen.
  destruct (loadRow_throws data row Hnp) as (k & g & divs & Hk & Hb & Hs & Hrun).
  eexists. exists k, g, divs. unfold Throwing.loadSequentially.
  rewrite (loop_throws fuel input 0 i0 rows [] data row)
    by (done || lia || (intros j d r ? ? ?; eapply (Hp j); (done || lia))).
  rewrite Nat.sub_0_r. simpl app. split; [done|].
  split; [by rewrite length_insert, length_imap|].
  split; [|split; [|split; [done|split; [done|split; [done|]]]]].
  - intros j Hj. rewrite list_lookup_insert_ne by lia.
    unfold pass. rewrite !list_lookup_imap. destruct (rows !! j); [|done]. simpl.
    by destruct (decide (0 ≤ j < i0)%nat); [|lia].
  - intros j Hj. rewrite list_lookup_insert_ne by lia.
    rewrite list_lookup_imap. destruct (rows !! j); [|done]. simpl.
    by destruct (decide (0 ≤ j < i0)%nat); [lia|].
  - rewrite list_lookup_insert_eq by (by rewrite length_imap). by rewrite Hrun.
Qed.


(* ===================================================================== *)
(** * Passes, resets and cycles                                            *)
(* ===================================================================== *)

Section MoreSequencer.
Context `{Runtime}.

Lemma reset_loop_spec (fuel : nat) (i : nat) (rows : Board) (log : list ResetAction) :
  let m := max 1 (length rows) in
  (i < m)%nat → (m - i ≤ fuel)%nat →
  reset_loop fuel i rows log
  = Some (imap (λ j row, if decide (i ≤ j)%nat then clearRow row else row) rows,
          log ++ (ResetRow <$> seq i (m - i)) ++ [ReloadPage]).
Proof.
  intros m. revert i rows log m.
  induction fuel as [|fuel IH]; intros i rows log m Hi Hfuel; [lia|].
  cbn [reset_loop]. rewrite length_alter.
  assert (Hrows :
    imap (λ j row, if decide (S i ≤ j)%nat then clearRow row else row)
         (alter clearRow i rows)
    = imap (λ j row, if decide (i ≤ j)%nat then clearRow row else row) rows).
  { apply list_eq. intros j. rewrite !list_lookup_imap.
    destruct (decide (i = j)) as [<-|Hne].
    - rewrite list_lookup_alter_eq. destruct (rows !! i); [|done]. simpl.
      destruct (decide (S i ≤ i)%nat); [lia|].
      by destruct (decide (i ≤ i)%nat); [|lia].
    - rewrite list_lookup_alter_ne by done. destruct (rows !! j); [|done]. simpl.
      destruct (decide (S i ≤ j)%nat), (decide (i ≤ j)%nat); (done || lia). }
  destruct (decide (S i < length rows)%nat) as [Hlt|Hge].
  - rewrite IH by (rewrite ?length_alter; lia).
    rewrite Hrows, length_alter. fold m. f_equal. f_equal.
    rewrite <- app_assoc. f_equal.
    replace (m - i)%nat with (S (m - S i)) by lia. done.
  - replace (m - i)%nat with 1%nat by lia. simpl.
    rewrite <- app_assoc. f_equal. f_equal.
    rewrite <- Hrows. apply list_eq. intros j. rewrite list_lookup_imap.
    destruct (alter _ i rows !! j) as [row|] eqn:Hj; [|done]. simpl.
    apply lookup_lt_Some in Hj. rewrite length_alter in Hj.
    by destruct (decide (S i ≤ j)%nat); [lia|].
Qed.

Lemma pass_nil (rows : Board) : pass [] rows = clearRow <$> rows.
Proof.
  unfold pass. apply list_eq. intros j.
  rewrite list_lookup_imap, list_lookup_fmap. by destruct (rows !! j).
Qed.












End MoreSequencer.

Section MorePaging.
Context `{Runtime}.

Lemma page_slice_window (results : list DataItem) (numRows : Z) (p : nat) :
  0 < numRows →
  page_slice results numRows p
  = take (Z.to_nat numRows) (drop (p * Z.to_nat numRows) results).
Proof.
  intros HR. unfold page_slice.
  replace ((Z.of_nat p + 1) * numRows) with (Z.of_nat p * numRows + numRows) by lia.
  rewrite slice_window by nia. do 2 f_equal. nia.
Qed.

Lemma pages_cycle_events (results : list DataItem) (numRows : Z) (ps : list nat) :
  pages (cycle_events results numRows ps) = page_slice results numRows <$> ps.
Proof.
  unfold cycle_events, pages. rewrite omap_app. simpl. rewrite app_nil_r.
  induction ps as [|p ps IH]; [done|]. rewrite !fmap_cons.
  change (omap ?f (ShowPage ?r :: ?l')) with (r :: omap f l'). by rewrite IH.
Qed.

Lemma mjoin_page_slices (results : list DataItem) (numRows : Z) (k : nat) :
  0 < numRows →
  mjoin (page_slice results numRows <$> seq 0 k)
  = take (k * Z.to_nat numRows) results.
Proof.
  intros HR. induction k as [|k IH]; [done|].
  rewrite seq_S, fmap_app, join_app, IH. simpl. rewrite app_nil_r.
  rewrite page_slice_window by done. rewrite take_take_drop. f_equal. lia.
Qed.

Lemma paginate_forever (fuel ticks : nat) (results : list DataItem) (numRows : Z)
    (i page : Z) (st : Board * list PagerEvent) :
  paginate fuel ticks results numRows PInf i page st = None.
Proof.
  revert i page st. induction fuel as [|fuel IH]; intros i page st; [done|].
  cbn [paginate]. destruct (show_page ticks results numRows i st) as [st'|]; [|done].
  simpl. apply IH.
Qed.

End MorePaging.

(** X8.  Records beyond the capacity of the board are ignored by a
    sequencer pass: only the first [rows.length] records of its input reach
    the board. *)
Theorem pass_ignores_extra_records `{Runtime} (fuel : nat) (input : list DataItem)
    (rows : Board) :
  (1 ≤ fuel)%nat → (length rows ≤ fuel)%nat →
  pass input rows = pass (take (length rows) input) rows
  ∧ fst <$> loadSequentially fuel input rows
    = fst <$> loadSequentially fuel (take (length rows) input) rows.
Proof.
  intros H1 Hn.
  assert (Hpass : pass input rows = pass (take (length rows) input) rows).
  { unfold pass. apply list_eq. intros i. rewrite !list_lookup_imap.
    destruct (rows !! i) as [row|] eqn:Hrow; [|done]. simpl.
    apply lookup_lt_Some in Hrow. unfold act_row.
    by rewrite lookup_take_lt. }
  split; [done|]. rewrite !loadSequentially_spec by done. simpl. by rewrite Hpass.
Qed.

(** X9.  [sf.board.reset] clears the rows 0, 1, ... in this order, once
    each, and then schedules the page reload; the board it leaves is the
    one a sequencer pass with no record leaves, rows in working order are
    all blank, and the [contents] datum of every group still is the value
    loaded last. *)
Theorem reset_clears_every_row `{Runtime} (fuel : nat) (rows : Board) :
  (1 ≤ fuel)%nat → (length rows ≤ fuel)%nat →
  reset fuel rows
  = Some (clearRow <$> rows,
          (ResetRow <$> seq 0 (max 1 (length rows))) ++ [ReloadPage])
  ∧ clearRow <$> rows = pass [] rows
  ∧ (Forall row_ok rows → Forall row_blank (clearRow <$> rows))
  ∧ (λ row : Row, contents <$> row) <$> (clearRow <$> rows)
    = (λ row : Row, contents <$> row) <$> rows.
Proof.
  intros H1 Hn. split; [|split; [|split]].
  - unfold reset. rewrite reset_loop_spec by lia. rewrite Nat.sub_0_r.
    do 2 f_equal. apply list_eq. intros j.
    rewrite list_lookup_imap, list_lookup_fmap. by destruct (rows !! j).
  - by rewrite pass_nil.
  - intros Hok. apply Forall_fmap. eapply Forall_impl; [done|].
    intros row. apply clearRow_blank.
  - rewrite <- list_fmap_compose. apply list_fmap_ext. intros _ row _. simpl.
    unfold clearRow. rewrite <- list_fmap_compose. by apply list_fmap_ext.
Qed.




(** X11.  The pages of a cycle follow one another without gap or overlap:
    put end to end they are the first [pages * numRows] records of the
    list (one page at least), which can be more than [numResults]. *)
Theorem pages_are_a_prefix `{Runtime} (fuel : nat) (options : Options)
    (results : list DataItem) (board : Board) :
  0 < numRows options →
  (1 ≤ fuel)%nat → (length board ≤ fuel)%nat → (length results ≤ fuel)%nat →
  ∃ P board' events,
    numPages options results = Fin P
    ∧ update fuel options results board = Some (board', events)
    ∧ length (pages events) = max 1 (Z.to_nat P)
    ∧ mjoin (pages events)
      = take (max 1 (Z.to_nat P) * Z.to_nat (numRows options)) results
    ∧ (Z.to_nat (numResults options results) ≤ length (mjoin (pages events)))%nat.
Proof.
  intros HR H1 Hn HL.
  destruct (ceil_div_pos (numResults options results) (numRows options) HR)
    as (P & HP & Hceil).
  assert (Hle : numResults options results ≤ Z.of_nat (length results))
    by (rewrite numResults_min; lia).
  exists P. eexists. eexists. split; [done|].
  split; [apply update_spec; (done || nia)|].
  rewrite pages_cycle_events, length_fmap, length_seq. split; [done|].
  rewrite mjoin_page_slices by done. split; [done|].
  rewrite length_take. nia.
Qed.

(** X12.  The cap is honoured when the list is no longer than
    [maxResults], or when [maxResults] is a positive multiple of
    [numRows]: the cycle then shows exactly the first [numResults]
    records. *)
Theorem cap_honoured_on_full_pages `{Runtime} (fuel : nat) (options : Options)
    (results : list DataItem) (board : Board) :
  0 < numRows options →
  (1 ≤ fuel)%nat → (length board ≤ fuel)%nat → (length results ≤ fuel)%nat →
  Z.of_nat (length results) ≤ effective_maxResults options
  ∨ (0 < effective_maxResults options
     ∧ (numRows options | effective_maxResults options)) →
  ∃ board' events,
    update fuel options results board = Some (board', events)
    ∧ mjoin (pages events) = take (Z.to_nat (numResults options results)) results.
Proof.
  intros HR H1 Hn HL Hcap.
  destruct (ceil_div_pos (numResults options results) (numRows options) HR)
    as (P & HP & Hceil).
  pose proof (numResults_min options results) as Hmin.
  eexists. eexists. split; [apply (update_spec _ _ _ _ P); (done || nia)|].
  rewrite pages_cycle_events, mjoin_page_slices by done.
  destruct (Z.le_gt_cases (Z.of_nat (length results)) (effective_maxResults options))
    as [Hshort|Hlong].
  - rewrite !take_ge; [done| |]; nia.
  - destruct Hcap as [|[Hpos [q Hq]]]; [lia|].
    assert (numResults options results = q * numRows options) as Hnr by lia.
    assert (P = q) by nia. subst P. f_equal. nia.
Qed.


(** X14.  An empty list still runs one pass: every row of the board is
    cleared, and the refresh is re-armed. *)
Theorem empty_results_clear_the_board `{Runtime} (fuel : nat) (options : Options)
    (board : Board) :
  0 ≤ numRows options →
  (1 ≤ fuel)%nat → (length board ≤ fuel)%nat →
  update fuel options [] board = Some (clearRow <$> board, [ShowPage []; Refresh]).
Proof.
  intros HR H1 Hn.
  assert (Hs : slice (@nil DataItem) 0 (0 + numRows options) = []).
  { unfold slice. simpl. by rewrite take_nil. }
  assert (Hnum : num_ltb (Fin (0 + 1)) (numPages options []) = false).
  { assert (Hnr : numResults options [] ≤ 0) by (rewrite numResults_min; simpl; lia).
    unfold numPages. generalize dependent (numResults options []). intros nr Hnr.
    destruct (Z.eq_dec (numRows options) 0) as [Hz|Hnz].
    - unfold ceil_div. rewrite Hz. simpl.
      destruct (Z.eqb_spec nr 0); [done|].
      by destruct (Z.ltb_spec 0 nr); [lia|].
    - destruct (ceil_div_pos nr (numRows options)) as (P & -> & Hceil); [lia|].
      simpl. apply Z.ltb_ge. nia. }
  unfold update. rewrite show_page_spec, Hnum, Hs, pass_nil by done. done.
Qed.

(** X15.  With [numRows = 0] and a positive [numResults] the page count is
    infinite: the pagination callback re-arms itself after every page and
    the refresh is never scheduled, however many callbacks run. *)
Theorem zero_numRows_never_refreshes `{Runtime} (fuel : nat) (options : Options)
    (results : list DataItem) (board : Board) :
  numRows options = 0 → 0 < numResults options results →
  numPages options results = PInf
  ∧ update fuel options results board = None.
Proof.
  intros HR Hpos.
  assert (HP : numPages options results = PInf).
  { unfold numPages, ceil_div. rewrite HR. simpl.
    destruct (Z.eqb_spec (numResults options results) 0); [lia|].
    by destruct (Z.ltb_spec 0 (numResults options results)); [|lia]. }
  split; [done|]. unfold update. rewrite HP.
  destruct (show_page fuel results (numRows options) 0 (board, [])) as [st|]; [|done].
  simpl. apply paginate_forever.
Qed.


(* ===================================================================== *)
(** * Arrivals, route statuses and transfers                               *)
(* ===================================================================== *)

Section MoreArrivals.

Lemma sort_insert_perm (x : Arrival) (l : list Arrival) :
  sort_insert compare x l ≡ₚ x :: l.
Proof.
  induction l as [|y l IH]; cbn [sort_insert]; [done|].
  destruct (num_ltb (Fin 0) (compare x y)); [|done].
  rewrite IH. apply Permutation_swap.
Qed.

Lemma sort_perm (l : list Arrival) : sort compare l ≡ₚ l.
Proof.
  unfold sort. induction l as [|x l IH]; cbn [foldr]; [done|].
  by rewrite sort_insert_perm, IH.
Qed.

Lemma by_key_not_after (a b : Arrival) :
  by_key a b → num_ltb (Fin 0) (compare a b) = false.
Proof.
  unfold compare, by_key, sort_key.
  destruct (arrival_time a), (arrival_time b); simpl; try done;
    intros Hle; apply Z.ltb_ge; lia.
Qed.

Lemma sort_sorted_id (l : list Arrival) :
  StronglySorted by_key l → sort compare l = l.
Proof.
  unfold sort. induction 1 as [|x l Hs IH Hx]; cbn [foldr]; [done|].
  rewrite IH. destruct l as [|y l]; [done|]. cbn [sort_insert].
  apply Forall_cons in Hx as [Hxy _]. by rewrite (by_key_not_after _ _ Hxy).
Qed.

Lemma minutes_cases (diff : Z) :
  (0 < diff / 60000 ↔ 60000 ≤ diff)
  ∧ (diff / 60000 = 0 ↔ 0 ≤ diff < 60000).
Proof.
  pose proof (Z.mul_div_le diff 60000 ltac:(lia)).
  pose proof (Z.mul_succ_div_gt diff 60000 ltac:(lia)).
  lia.
Qed.

Lemma length_omap_le {A B} (f : A → option B) (l : list A) :
  (length (omap f l) ≤ length l)%nat.
Proof.
  induction l as [|x l IH]; [done|].
  change (omap f (x :: l)) with (match f x with Some y => y :: omap f l | None => omap f l end).
  destruct (f x); simpl; lia.
Qed.

Lemma get_stop_times_current_stop (feed : Feed) (a : Arrival) :
  a ∈ get_stop_times feed → current_stop a = stop_name feed.
Proof.
  unfold get_stop_times. rewrite list_elem_of_omap. intros (st & _ & Ha).
  destruct (departure_time st) as [ts|]; [|done].
  destruct (0 <? minutes_to_leave (now_ms feed) ts); [by injection Ha as <-|].
  destruct (minutes_to_leave (now_ms feed) ts =? 0); [by injection Ha as <-|done].
Qed.

Lemma arrivals_valid (feeds : list Feed) (status : gmap (list N) jsstring)
    (item : DataItem) :
  item ∈ arrivals (fetchAndWrite feeds status) → valid_scheduled (scheduled item).
Proof.
  unfold arrivals. intros Hitem.
  apply list_elem_of_fmap in Hitem as (e & -> & He).
  apply elem_of_take in He as (k & He & _). apply list_elem_of_lookup_2 in He.
  rewrite scheduled_arrival_item.
  by eapply (proj1 (Forall_forall _ _) (fetchAndWrite_valid feeds status)).
Qed.

(** An arrival the sort moves behind another has a different key. *)
Lemma compare_after_key (a b : Arrival) :
  num_ltb (Fin 0) (compare a b) = true → sort_key a ≠ sort_key b.
Proof.
  unfold compare. intros Hlt Heq. rewrite Heq in Hlt.
  destruct (sort_key b); simpl in Hlt; try done.
  rewrite Z.sub_diag in Hlt. done.
Qed.

Lemma filter_sort_insert (k : num) (x : Arrival) (l : list Arrival) :
  filter (λ a, sort_key a = k) (sort_insert compare x l)
  = filter (λ a, sort_key a = k) (x :: l).
Proof.
  induction l as [|y l IH]; [done|]. cbn [sort_insert].
  destruct (num_ltb (Fin 0) (compare x y)) eqn:Hc; [|done].
  apply compare_after_key in Hc.
  rewrite filter_cons, IH, !filter_cons.
  destruct (decide (sort_key y = k)), (decide (sort_key x = k)); (done || congruence).
Qed.

Lemma filter_sort (k : num) (l : list Arrival) :
  filter (λ a, sort_key a = k) (sort compare l) = filter (λ a, sort_key a = k) l.
Proof.
  unfold sort. induction l as [|x l IH]; cbn [foldr]; [done|].
  by rewrite filter_sort_insert, !filter_cons, IH.
Qed.

End MoreArrivals.

Section MoreStatus.
Context `{Runtime}.

Lemma route_status_cases (route : Route) :
  (rt_alerts route = [] ∧ route_status route = lit "Good Service")
  ∨ (rt_alerts route ≠ []
     ∧ (route_status route = lit "SERVICE CHANGE" ∨ route_status route = lit "DELAYS")).
Proof.
  unfold route_status. destruct (decide (rt_alerts route = [])); [by left|].
  right. split; [done|]. destruct (delay_found _); [by left|by right].
Qed.

Lemma get_service_status_snoc (routes : list Route) (route : Route) :
  get_service_status (routes ++ [route])
  = <[rt_id route := route_status route]> (get_service_status routes).
Proof. unfold get_service_status. by rewrite foldl_app. Qed.

Lemma last_route_snoc (routes : list Route) (route : Route) (id : jsstring) :
  last_route (routes ++ [route]) id
  = if decide (rt_id route = id) then Some route else last_route routes id.
Proof.
  unfold last_route. rewrite filter_app, filter_cons, filter_nil.
  destruct (decide (rt_id route = id)).
  - by rewrite last_snoc.
  - by rewrite app_nil_r.
Qed.

(** The status recorded under an id is that of the last route carrying
    it. *)
Lemma get_service_status_lookup (routes : list Route) (id : jsstring) :
  get_service_status routes !! id = route_status <$> last_route routes id.
Proof.
  induction routes as [|route routes IH] using rev_ind; [done|].
  rewrite get_service_status_snoc, last_route_snoc, lookup_insert.
  destruct (decide (rt_id route = id)); [done|]. apply IH.
Qed.

Lemma includes_spec (s sub : jsstring) :
  includes s sub = true ↔ ∃ pre post, s = pre ++ sub ++ post.
Proof.
  unfold includes. rewrite existsb_exists. split.
  - intros (k & _ & Hk). apply bool_decide_eq_true in Hk.
    exists (take k s), (drop (length sub) (drop k s)).
    rewrite <- Hk at 1. by rewrite !take_drop.
  - intros (pre & post & ->). exists (length pre). split.
    + apply in_seq. rewrite !length_app. lia.
    + apply bool_decide_eq_true. rewrite drop_app_length. by rewrite take_app_length.
Qed.

Lemma delay_found_spec (alerts : list Alert) :
  delay_found alerts = true ↔ Exists maintenance_alert alerts.
Proof.
  induction alerts as [|alert alerts IH]; simpl.
  - split; [done|]. intros Hex. by apply Exists_nil in Hex.
  - rewrite Exists_cons, <- IH. unfold maintenance_alert.
    destruct (contains_delay (al_cause alert)); simpl; [split; [by left; left|done]|].
    destruct (contains_delay (al_effect alert)); simpl; [split; [by left; right|done]|].
    split; [by right|]. by intros [[|]|].
Qed.

End MoreStatus.


Lemma switch_class_cases (cases : list (jsstring * jsstring)) (i c : jsstring) :
  (∃ v, (i, v) ∈ cases ∧ switch_class cases i c = v)
  ∨ switch_class cases i c = c.
Proof.
  induction cases as [|[k v] cases IH]; [by right|]. simpl.
  destruct (decide (i = k)) as [->|_].
  - left. exists v. split; [apply list_elem_of_here|done].
  - destruct IH as [(w & Hw & ->)| ->]; [|by right].
    left. exists w. split; [by apply list_elem_of_further|done].
Qed.

(** X16.  [get_stop_times] keeps exactly the stop times that have a
    departure time not before the clock: one due within the minute becomes
    the zero marker, one due later carries the whole minutes left; stop
    times already past, or without a departure time, are left out. *)
Theorem get_stop_times_keeps_upcoming (feed : Feed) (a : Arrival) :
  (a ∈ get_stop_times feed ↔
   ∃ st ts,
     st ∈ stopTimes feed ∧ departure_time st = Some ts
     ∧ now_ms feed ≤ ts * 1000
     ∧ a = {| route_id := st_route_id st;
              arrival_time :=
                if ts * 1000 - now_ms feed <? 60000 then zero_marker
                else JNum ((ts * 1000 - now_ms feed) / 60000);
              current_stop := stop_name feed;
              last_stop_name := st_destination st;
              service_status := [] |})
  ∧ (length (get_stop_times feed) ≤ length (stopTimes feed))%nat.
Proof.
  split; [|apply length_omap_le].
  unfold get_stop_times. rewrite list_elem_of_omap.
  split.
  - intros (st & Hst & Ha). exists st.
    destruct (departure_time st) as [ts|] eqn:Hts; [|done]. exists ts.
    unfold minutes_to_leave in Ha.
    destruct (minutes_cases (ts * 1000 - now_ms feed)) as [Hpos Hzero].
    destruct (Z.ltb_spec 0 ((ts * 1000 - now_ms feed) / 60000)) as [Hp|Hp].
    + apply Hpos in Hp. injection Ha as <-.
      repeat split; [done|lia|].
      by destruct (Z.ltb_spec (ts * 1000 - now_ms feed) 60000); [lia|].
    + destruct (Z.eqb_spec ((ts * 1000 - now_ms feed) / 60000) 0) as [Hz|]; [|done].
      apply Hzero in Hz. injection Ha as <-.
      repeat split; [done|lia|].
      by destruct (Z.ltb_spec (ts * 1000 - now_ms feed) 60000); [|lia].
  - intros (st & ts & Hst & Hts & Hnow & ->). exists st. split; [done|].
    rewrite Hts. unfold minutes_to_leave.
    destruct (minutes_cases (ts * 1000 - now_ms feed)) as [Hpos Hzero].
    destruct (Z.ltb_spec (ts * 1000 - now_ms feed) 60000) as [Hlt|Hge].
    + destruct (Z.ltb_spec 0 ((ts * 1000 - now_ms feed) / 60000)) as [Hp|Hp].
      { apply Hpos in Hp. lia. }
      destruct (Z.eqb_spec ((ts * 1000 - now_ms feed) / 60000) 0) as [|Hnz]; [done|].
      destruct Hnz. apply Hzero. lia.
    + destruct (Z.ltb_spec 0 ((ts * 1000 - now_ms feed) / 60000)) as [Hp|Hp]; [done|].
      apply Hpos in Hge. lia.
Qed.

(** X17.  Sorting loses and invents nothing: the list [fetchAndWrite]
    builds holds the arrivals gathered from the feeds, each once, each with
    a route status that is never empty; and a list already in the order of
    the comparator's key is left as it is. *)
Theorem fetchAndWrite_keeps_every_arrival (feeds : list Feed)
    (status : gmap (list N) jsstring) :
  arrival_core <$> fetchAndWrite feeds status
  ≡ₚ arrival_core <$> (feeds ≫= get_stop_times)
  ∧ length (fetchAndWrite feeds status) = length (feeds ≫= get_stop_times)
  ∧ Forall (λ a, service_status a ≠ []
                 ∧ (service_status a = lit "Unknown"
                    ∨ status !! route_id a = Some (service_status a)))
      (fetchAndWrite feeds status)
  ∧ (∀ l, StronglySorted by_key l → sort compare l = l)
  ∧ (∀ l, sort compare (sort compare l) = sort compare l).
Proof.
  split; [|split; [|split; [|split]]].
  - unfold fetchAndWrite. rewrite sort_perm, <- list_fmap_compose.
    done.
  - unfold fetchAndWrite. by rewrite sort_perm, length_fmap.
  - apply Forall_forall. intros a Ha. unfold fetchAndWrite in Ha.
    rewrite elem_of_sort in Ha. apply list_elem_of_fmap in Ha as (b & -> & _). simpl.
    destruct (status !! route_id b) as [st|] eqn:Hst; simpl.
    + destruct (decide (st = [])) as [->|Hne]; [split; [done|by left]|].
      split; [done|by right].
    + split; [done|by left].
  - apply sort_sorted_id.
  - intros l. apply sort_sorted_id, sort_sorted.
Qed.

(** X18.  The backend never serves a [scheduled] value that [loadRow]
    would blank: it is the zero marker ['0'] (a non-empty string) or a
    positive number, so the group whose second class is [scheduled] is
    loaded with ['0'] or with the decimal digits of the minutes. *)
Theorem served_scheduled_is_displayed (feeds : list Feed)
    (status : gmap (list N) jsstring) (item : DataItem) (g : Group) :
  item ∈ arrivals (fetchAndWrite feeds status) →
  classes g !! 1%nat = Some (lit "scheduled") →
  truthy (field item g) = true
  ∧ (if truthy (field item g) then field item g else JStr []) = scheduled item
  ∧ (toString (scheduled item) = lit "0"
     ∨ ∃ n, 0 < n ∧ toString (scheduled item) = lit (pretty n)).
Proof.
  intros Hitem Hcls.
  assert (Hfield : field item g = scheduled item).
  { unfold field, scheduled. by rewrite Hcls. }
  pose proof (arrivals_valid feeds status item Hitem) as Hvalid.
  rewrite Hfield.
  destruct Hvalid as [->|(n & Hn & ->)].
  - repeat split. by left.
  - simpl. destruct (Z.eqb_spec n 0); [lia|]. repeat split. right. by exists n.
Qed.



(** X19.  Every served record has the six fields [line], [stop],
    [terminal], [scheduled], [remarks], [status] and no other; [status] is
    ['B'] when the route of the record has at least one alert in the last
    entry of [routes] carrying its id, and ['A'] otherwise, also for a
    route the service does not list, whose [remarks] is ['Unknown']. *)
Theorem served_status_follows_alerts `{Runtime} (feeds : list Feed)
    (routes : list Route) (item : DataItem) :
  item ∈ arrivals (fetchAndWrite feeds (get_service_status routes)) →
  dom item = list_to_set (lit <$> ["line"; "stop"; "terminal"; "scheduled";
                                    "remarks"; "status"]%string)
  ∧ ∃ id remarks status,
      text_field item "line" = Some (JStr id)
      ∧ text_field item "remarks" = Some (JStr remarks)
      ∧ text_field item "status" = Some (JStr status)
      ∧ match last_route routes id with
        | Some route =>
            remarks = route_status route
            ∧ status = (if decide (rt_alerts route = []) then lit "A" else lit "B")
        | None => remarks = lit "Unknown" ∧ status = lit "A"
        end.
Proof.
  intros Hitem. unfold arrivals in Hitem.
  apply list_elem_of_fmap in Hitem as (e & -> & He).
  apply elem_of_take in He as (k & He & _).
  apply list_elem_of_lookup_2 in He. unfold fetchAndWrite in He.
  rewrite elem_of_sort in He. apply list_elem_of_fmap in He as (b & -> & _).
  split.
  { unfold arrival_item. rewrite !dom_insert_L, dom_singleton_L. simpl. set_solver. }
  exists (route_id b). eexists. eexists.
  split; [reflexivity|]. split; [reflexivity|]. split; [reflexivity|].
  cbn [service_status route_id].
  rewrite get_service_status_lookup.
  destruct (last_route routes (route_id b)) as [route|]; simpl.
  - destruct (route_status_cases route) as [[Hnil ->]|[Hne [-> | ->]]]; simpl;
      (split; [done|]); by destruct (decide (rt_alerts route = [])).
  - done.
Qed.

(** X20.  One refresh gathers the stop times of the chosen station and of
    the direct targets of its transfers only: every arrival carries the
    stop name of the station or of a stop some transfer leads to from it. *)
Theorem refresh_covers_station_and_transfers `{Runtime} (station : jsstring)
    (stops : jsstring → Feed) (transfers : list Transfer) (routes : list Route)
    (a : Arrival) :
  a ∈ refresh station stops transfers routes →
  current_stop a = stop_name (stops station)
  ∨ ∃ transfer to,
      transfer ∈ transfers
      ∧ fromStop transfer = Some station ∧ toStop transfer = Some to
      ∧ current_stop a = stop_name (stops to).
Proof.
  unfold refresh, fetchAndWrite. rewrite elem_of_sort.
  intros Ha. apply list_elem_of_fmap in Ha as (b & -> & Hb). simpl.
  apply list_elem_of_bind in Hb as (feed & Hb & Hfeed).
  pose proof (get_stop_times_current_stop feed b Hb) as Hstop.
  rewrite Hstop. apply elem_of_cons in Hfeed as [->|Hfeed]; [by left|].
  right. apply list_elem_of_fmap in Hfeed as (to & -> & Hto).
  unfold get_transfer_stations in Hto.
  apply list_elem_of_omap in Hto as (transfer & Ht & Hsome).
  exists transfer, to. split; [done|].
  destruct (fromStop transfer) as [from|]; [|done].
  destruct (toStop transfer) as [to'|]; [|done].
  destruct (decide (from = station)) as [->|]; [|done].
  by injection Hsome as ->.
Qed.

(** X21.  Distinct characters never share a visual class: the class
    [show] gives a single character, as a character, determines it.  This
    is particular to single characters: the two-letter token ['sp'] gets
    the class of the blank. *)
Theorem show_class_determines_character :
  (∀ u v : N, show_class [u] true = show_class [v] true → u = v)
  ∧ show_class (lit "sp") true = show_class blank true.
Proof.
  split; [|reflexivity]. intros u v.
  unfold show_class.
  destruct (switch_class_cases special_class [u] (lit "c" ++ [u]))
    as [(cu & Hu & ->)| ->];
  destruct (switch_class_cases special_class [v] (lit "c" ++ [v]))
    as [(cv & Hv & ->)| ->].
  - unfold special_class in Hu, Hv.
    repeat (apply elem_of_cons in Hu as [[= -> ->]|Hu]);
      try (by apply elem_of_nil in Hu);
      repeat (apply elem_of_cons in Hv as [[= -> ->]|Hv]);
      try (by apply elem_of_nil in Hv); (done || by intros [=]).
  - unfold special_class in Hu.
    repeat (apply elem_of_cons in Hu as [[= -> ->]|Hu]);
      try (by apply elem_of_nil in Hu); by intros [=].
  - unfold special_class in Hv.
    repeat (apply elem_of_cons in Hv as [[= -> ->]|Hv]);
      try (by apply elem_of_nil in Hv); by intros [=].
  - by intros [= ->].
Qed.

(** X23.  The status of a route follows its alerts: ['Good Service'] with
    no alert, ['SERVICE CHANGE'] as soon as the cause or the effect of one
    alert mentions a maintenance (as a substring, in any letter case),
    ['DELAYS'] with alerts none of which does. *)
Theorem route_status_by_alerts `{Runtime} (route : Route) :
  (route_status route = lit "Good Service" ↔ rt_alerts route = [])
  ∧ (route_status route = lit "SERVICE CHANGE"
     ↔ Exists maintenance_alert (rt_alerts route))
  ∧ (route_status route = lit "DELAYS"
     ↔ rt_alerts route ≠ [] ∧ ¬ Exists maintenance_alert (rt_alerts route))
  ∧ (∀ value,
       contains_delay value = true
       ↔ value ≠ [] ∧ ∃ pre post, toUpperCase value = pre ++ lit "MAINTENANCE" ++ post).
Proof.
  unfold route_status. rewrite <- delay_found_spec.
  split; [|split; [|split]].
  - destruct (decide (rt_alerts route = [])); [done|].
    by destruct (delay_found (rt_alerts route)).
  - destruct (decide (rt_alerts route = [])) as [->|]; [done|].
    by destruct (delay_found (rt_alerts route)).
  - destruct (decide (rt_alerts route = [])); [split; [done|by intros []]|].
    destruct (delay_found (rt_alerts route)); [split; [done|by intros [_ []]]|].
    done.
  - intros value. unfold contains_delay. rewrite <- includes_spec.
    destruct (decide (value = [])); [split; [done|by intros []]|]. by split; [|intros []].
Qed.

(** X24.  The sort is stable: arrivals with the same key (the same number
    of minutes, or the zero marker) are listed in the order they were
    gathered, the station's before those of its transfers. *)
Theorem same_key_arrivals_keep_their_order (feeds : list Feed)
    (status : gmap (list N) jsstring) (k : num) :
  arrival_core <$> filter (λ a, sort_key a = k) (fetchAndWrite feeds status)
  = arrival_core <$> filter (λ a, sort_key a = k) (feeds ≫= get_stop_times).
Proof.
  unfold fetchAndWrite. rewrite filter_sort.
  generalize (feeds ≫= get_stop_times). intros l.
  induction l as [|x l IH]; [done|].
  rewrite fmap_cons, !filter_cons. unfold sort_key at 1. simpl.
  fold (sort_key x).
  destruct (decide (sort_key x = k)); [|done].
  rewrite !fmap_cons. by f_equal.
Qed.

(* ===================================================================== *)
(** * The further theorems at work on the samples                          *)
(* ===================================================================== *)

(** X2 on the numeric drum: three positions forward, then three back. *)
Lemma rotate_rotate_witness :
  rotate (rotate NumDrum 3) (-3) = NumDrum.
Proof.
  exact (proj2 (rotate_rotate NumDrum 3 (-3)
                  ltac:(change (2 ^ 31) with 2147483648; lia)
                  ltac:(change (2 ^ 31) with 2147483648; lia)
                  ltac:(change (2 ^ 31) with 2147483648; lia)) eq_refl).
Defined.

(** X4 on a drum of three logos, sent to a logo it lacks. *)
Lemma change_without_blank_witness :
  order (change Samples.logo_slot (JStr (lit "bus")) false)
  = [lit "path"; lit "mta"; lit "lirr"]
  ∧ fx (change Samples.logo_slot (JStr (lit "bus")) false) = []
  ∧ className (change Samples.logo_slot (JStr (lit "bus")) false) = lit "mta".
Proof.
  destruct (change_without_blank Samples.logo_slot (JStr (lit "bus")) false
              ltac:(discriminate)
              ltac:(apply (bool_decide_unpack _); vm_compute; exact I)
              eq_refl) as (Hfx & Hcls & Ho & _).
  split; [exact Ho|]. split; [exact Hfx|exact Hcls].
Defined.

(** X8 on the sample board of 2 rows and five records. *)
Lemma pass_ignores_extra_records_witness :
  pass (H := Samples.ascii_runtime) Samples.five_results (Samples.board 2)
  = pass (H := Samples.ascii_runtime) [Samples.r0; Samples.r1] (Samples.board 2).
Proof.
  exact (proj1 (pass_ignores_extra_records (H := Samples.ascii_runtime) 5
                  Samples.five_results (Samples.board 2)
                  ltac:(lia) ltac:(vm_compute; lia))).
Defined.

(** X9 on the sample board of 2 rows. *)
Lemma reset_clears_every_row_witness :
  reset (H := Samples.ascii_runtime) 5 (Samples.board 2)
  = Some (clearRow (H := Samples.ascii_runtime) <$> Samples.board 2,
          [ResetRow 0; ResetRow 1; ReloadPage]).
Proof.
  exact (proj1 (reset_clears_every_row (H := Samples.ascii_runtime) 5 (Samples.board 2)
                  ltac:(lia) ltac:(vm_compute; lia))).
Defined.


(** X11 on five records, two rows and [maxResults = 3]: the two pages
    hold four records. *)
Lemma pages_are_a_prefix_witness :
  ∃ board' events,
    update (H := Samples.ascii_runtime) 5 Samples.capped_options
      Samples.five_results (Samples.board 2)
    = Some (board', events)
    ∧ mjoin (pages events) = [Samples.r0; Samples.r1; Samples.r2; Samples.r3].
Proof.
  destruct (pages_are_a_prefix (H := Samples.ascii_runtime) 5 Samples.capped_options
              Samples.five_results (Samples.board 2)
              ltac:(reflexivity) ltac:(lia) ltac:(vm_compute; lia) ltac:(simpl; lia))
    as (P & board' & events & HP & Hrun & _ & Hjoin & _).
  exists board', events. split; [exact Hrun|].
  vm_compute in HP. injection HP as <-. exact Hjoin.
Defined.

(** X12 on five records, two rows and [maxResults = 4]. *)
Lemma cap_honoured_on_full_pages_witness :
  ∃ board' events,
    update (H := Samples.ascii_runtime) 5 Samples.full_pages_options
      Samples.five_results (Samples.board 2)
    = Some (board', events)
    ∧ mjoin (pages events) = [Samples.r0; Samples.r1; Samples.r2; Samples.r3].
Proof.
  destruct (cap_honoured_on_full_pages (H := Samples.ascii_runtime) 5
              Samples.full_pages_options Samples.five_results (Samples.board 2)
              ltac:(reflexivity) ltac:(lia) ltac:(vm_compute; lia) ltac:(simpl; lia)
              (or_intror (conj eq_refl (ex_intro _ 2 eq_refl))))
    as (board' & events & Hrun & Hjoin).
  exists board', events. split; [exact Hrun|exact Hjoin].
Defined.


(** X14 on the sample board of 2 rows. *)
Lemma empty_results_clear_the_board_witness :
  update (H := Samples.ascii_runtime) 5 Samples.capped_options [] (Samples.board 2)
  = Some (clearRow (H := Samples.ascii_runtime) <$> Samples.board 2,
          [ShowPage []; Refresh]).
Proof.
  exact (empty_results_clear_the_board (H := Samples.ascii_runtime) 5
           Samples.capped_options (Samples.board 2)
           ltac:(simpl; lia) ltac:(lia) ltac:(vm_compute; lia)).
Defined.

(** X15 on five records with [numRows = 0] and [maxResults = 3]. *)
Lemma zero_numRows_never_refreshes_witness :
  update (H := Samples.ascii_runtime) 7 Samples.zero_rows_options
    Samples.five_results (Samples.board 2)
  = None.
Proof.
  exact (proj2 (zero_numRows_never_refreshes (H := Samples.ascii_runtime) 7
                  Samples.zero_rows_options Samples.five_results (Samples.board 2)
                  eq_refl eq_refl)).
Defined.

(** X18 on the train of route C, due in 5 minutes. *)
Lemma served_scheduled_is_displayed_witness :
  truthy (field (arrival_item Samples.changed_arrival) Samples.scheduled_group) = true.
Proof.
  exact (proj1 (served_scheduled_is_displayed [Samples.feed]
                  (get_service_status (H := Samples.ascii_runtime) Samples.routes)
                  (arrival_item Samples.changed_arrival) Samples.scheduled_group
                  ltac:(apply list_elem_of_fmap_2; vm_compute; apply list_elem_of_here)
                  eq_refl)).
Defined.

(** X19 on the train of route C, which has a maintenance alert. *)
Lemma served_status_follows_alerts_witness :
  dom (arrival_item Samples.changed_arrival)
  = list_to_set (lit <$> ["line"; "stop"; "terminal"; "scheduled";
                          "remarks"; "status"]%string).
Proof.
  exact (proj1 (served_status_follows_alerts (H := Samples.ascii_runtime)
                  [Samples.feed] Samples.routes (arrival_item Samples.changed_arrival)
                  ltac:(apply list_elem_of_fmap_2; vm_compute; apply list_elem_of_here))).
Defined.

(** X20 on the sample station and its one transfer. *)
Lemma refresh_covers_station_and_transfers_witness :
  current_stop Samples.transfer_arrival = stop_name (Samples.stops (lit "A34"))
  ∨ ∃ transfer to,
      transfer ∈ Samples.transfers
      ∧ fromStop transfer = Some (lit "A34") ∧ toStop transfer = Some to
      ∧ current_stop Samples.transfer_arrival = stop_name (Samples.stops to).
Proof.
  exact (refresh_covers_station_and_transfers (H := Samples.ascii_runtime)
           (lit "A34") Samples.stops Samples.transfers Samples.routes
           Samples.transfer_arrival
           ltac:(vm_compute; apply list_elem_of_here)).
Defined.


(** C3 on the sample board of 5 rows with 3 records: five actions, and
    row 3 is cleared. *)
Lemma loadSequentially_one_action_per_row_witness :
  ∃ log,
    Throwing.loadSequentially (H := Samples.ascii_runtime) (H0 := Samples.ascii_selectors)
      5 [Samples.r0; Samples.r1; Samples.r2] (Samples.board 5)
    = Some (Returned (pass (H := Samples.ascii_runtime)
                        [Samples.r0; Samples.r1; Samples.r2] (Samples.board 5), log))
    ∧ omap action_index log = [0; 1; 2; 3; 4]%nat
    ∧ pass (H := Samples.ascii_runtime)
        [Samples.r0; Samples.r1; Samples.r2] (Samples.board 5) !! 3%nat
      = Some (clearRow (H := Samples.ascii_runtime) (initRow Samples.template))
    ∧ row_cleared (H := Samples.ascii_runtime) (initRow Samples.template)
        (clearRow (H := Samples.ascii_runtime) (initRow Samples.template)).
Proof.
  assert (Hp : ∀ i data row,
            [Samples.r0; Samples.r1; Samples.r2] !! i = Some data →
            Samples.board 5 !! i = Some row →
            row_parses (H := Samples.ascii_runtime) (H0 := Samples.ascii_selectors)
              data row).
  { intros i data row Hi Hr. apply (bool_decide_unpack _).
    destruct i as [|[|[|i]]]; try discriminate Hi;
      injection Hi as <-; vm_compute in Hr; injection Hr as <-;
      vm_compute; exact I. }
  assert (Hready : row_ready (initRow Samples.template))
    by (apply (bool_decide_unpack _); vm_compute; exact I).
  destruct (loadSequentially_one_action_per_row
              (H := Samples.ascii_runtime) (H0 := Samples.ascii_selectors) 5
              [Samples.r0; Samples.r1; Samples.r2] (Samples.board 5)
              ltac:(lia) ltac:(vm_compute; lia) Hp)
    as (log & Hrun & _ & Hidx & _ & _ & Hrows).
  destruct (Hrows eq_refl eq_refl 3%nat (initRow Samples.template)
              (or_introl eq_refl) eq_refl)
    as (Hrow & _ & Hcleared & _).
  exists log. split; [exact Hrun|]. split; [exact Hidx|].
  split; [exact Hrow|exact (Hcleared Hready)].
Defined.


(** X3 on the numeric slot that shows ['5'], sent to ['2']: ten steps. *)
Lemma change_step_count_witness :
  indexOf (order Samples.showing_five) (JStr (lit "2")) = 10
  ∧ steps_queued Samples.showing_five
      (change Samples.showing_five (JStr (lit "2")) true) = 10.
Proof.
  split; [reflexivity|].
  exact (proj1 (proj2 (change_step_count Samples.showing_five (JStr (lit "2")) true))
           ltac:(vm_compute; discriminate)).
Defined.

(** X26 on the sample board: the second record has the status ['#']. *)
Lemma pass_stops_at_rejected_selector_witness :
  ∃ rows',
    Throwing.loadSequentially (H := Samples.ascii_runtime) (H0 := Samples.ascii_selectors)
      5 [Samples.r0; Samples.r_hash; Samples.r2] (Samples.board 5)
    = Some (Thrown (rows', [LoadRow 0 Samples.r0; LoadRow 1 Samples.r_hash]))
    ∧ rows' !! 2%nat = Samples.board 5 !! 2%nat.
Proof.
  destruct (pass_stops_at_rejected_selector
              (H := Samples.ascii_runtime) (H0 := Samples.ascii_selectors) 5
              [Samples.r0; Samples.r_hash; Samples.r2] (Samples.board 5) 1
              Samples.r_hash (initRow Samples.template)
              ltac:(lia) eq_refl eq_refl
              ltac:(intros Hp; apply (bool_decide_pack _) in Hp; vm_compute in Hp;
                    exact Hp)
              ltac:(intros j d r Hj Hd Hr; apply (bool_decide_unpack _);
                    destruct j as [|j]; [|lia];
                    injection Hd as <-; vm_compute in Hr; injection Hr as <-;
                    vm_compute; exact I))
    as (rows' & k & g & divs & Hrun & _ & _ & Hafter & _).
  exists rows'. split; [exact Hrun|]. apply Hafter. lia.
Defined.
